(** * image_finder: retry-wrapped fetch, search adapters, relevance scoring

    A shallow embedding of [main.py].  Python values that come from JSON are
    modelled by [json]; dictionaries are [gmap string json]; the effects of
    the script (printing, sleeping, HTTP GETs, language-model calls, reading
    standard input, raising) are modelled by a small state-and-exception
    monad [M] whose state records a chronological trace of events together
    with the number of GETs and of model calls issued so far.  Everything
    outside the script (the HTTP server, the language model, standard input,
    Python's [float]) is an oracle collected in the record [world]. *)

From Stdlib Require Import ZArith SpecFloat Ascii.
From stdpp Require Import gmap strings list.

Set Warnings "-register-all".
Open Scope Z_scope.

(** ** Python values *)

Inductive json :=
| JNull
| JBool (b : bool)
| JInt (z : Z)
| JFloat (f : spec_float)
| JStr (s : string)
| JList (l : list json)
| JObj (m : gmap string json).

(** Python dictionaries with string keys. *)
Abbreviation dict := (gmap string json).

(** [bool(v)]: [None], [False], zeros, and empty containers are falsy. *)
Definition truthy (v : json) : bool :=
  match v with
  | JNull => false
  | JBool b => b
  | JInt z => negb (z =? 0)
  | JFloat (S754_zero _) => false
  | JFloat _ => true
  | JStr s => negb (String.eqb s "")
  | JList l => negb (Nat.eqb (length l) 0)
  | JObj m => negb (Nat.eqb (size m) 0)
  end.

(** ** Exceptions *)

(** Exception instances, classified by what the handlers of the script can
    tell apart.  [HTTPError] and [RequestError] are the instances of
    [requests.exceptions.RequestException] ([RequestError] stands for every
    subclass other than [HTTPError]: [ConnectionError], [Timeout],
    [requests.exceptions.JSONDecodeError], ...).  [PyError] stands for
    every other exception class, named by its class name. *)
Inductive exn :=
| HTTPError (status : Z)
| RequestError (name : string)
| SystemExit (code : Z)
| PyError (name : string).

(** [isinstance(e, RequestException)] *)
Definition is_RequestException (e : exn) : bool :=
  match e with
  | HTTPError _ | RequestError _ => true
  | SystemExit _ | PyError _ => false
  end.

Inductive result (A : Type) :=
| Ok (a : A)
| Raise (e : exn).
Arguments Ok {A} a.
Arguments Raise {A} e.

(** ** The outside world *)

Definition params := list (string * json).

(** An HTTP response: its status code and what [response.json()] does
    (it returns the decoded body or raises). *)
Record response := {
  status_code : Z;
  json_body : result json
}.

Inductive prompt :=
| KeywordsPrompt (text : string)
| RelevancePrompt (text : string) (image_url : json).

Record world := {
  (** [requests.get(url, params=params)] for the [n]-th GET of the run *)
  http : nat → string → params → result response;
  (** [llm.invoke(prompt)] for the [n]-th model call of the run *)
  llm : nat → prompt → string;
  (** [input(...)] *)
  stdin : string;
  (** Python's [float(s)] on a string; [None] stands for [ValueError] *)
  py_float : string → option spec_float
}.

(** ** Events and messages *)

Inductive message :=
| MsgRateLimited
| MsgRequestError (e : exn)
| MsgRetriesExhausted
| MsgNoOpenAIKey
| MsgNoGoogleKeys
| MsgNoSerpApiKey
| MsgBadSearchEngine
| MsgExtracting
| MsgKeywords (keywords : string)
| MsgSearching (engine : option string)
| MsgInvalidEngine
| MsgNoImagesFound
| MsgScoring
| MsgChosenUrl (v : json)
| MsgChosenDescription (v : json)
| MsgNoRelevantImage.

Inductive event :=
| EvPrint (m : message)
| EvSleep (seconds : Z)
| EvGet (url : string) (p : params)
| EvInvoke (p : prompt)
| EvInput.

(** ** The monad *)

Record state := {
  trace : list event;
  gets : nat;
  invokes : nat
}.

Definition init : state := {| trace := []; gets := 0; invokes := 0 |}.

Definition M (A : Type) : Type := state → result A * state.

Definition ret {A} (a : A) : M A := λ s, (Ok a, s).

Definition bind {A B} (m : M A) (k : A → M B) : M B :=
  λ s, match m s with
       | (Ok a, s') => k a s'
       | (Raise e, s') => (Raise e, s')
       end.

Definition raise {A} (e : exn) : M A := λ s, (Raise e, s).

(** [try: body  except C as e: handler e], where [catches] decides
    [isinstance(e, C)]. *)
Definition try_except {A} (body : M A) (catches : exn → bool)
    (handler : exn → M A) : M A :=
  λ s, match body s with
       | (Ok a, s') => (Ok a, s')
       | (Raise e, s') => if catches e then handler e s' else (Raise e, s')
       end.

#[global] Instance M_ret : MRet M := @ret.
#[global] Instance M_bind : MBind M := λ A B k m, bind m k.

(** The state after the events [es] have been appended to the trace. *)
Definition logged (es : list event) (s : state) : state :=
  {| trace := trace s ++ es; gets := gets s; invokes := invokes s |}.

Definition emit (e : event) : M unit := λ s, (Ok tt, logged [e] s).

Definition print (m : message) : M unit := emit (EvPrint m).

Definition sleep (seconds : Z) : M unit := emit (EvSleep seconds).

Definition sys_exit {A} (code : Z) : M A := raise (SystemExit code).

(** ** Python built-ins used by the script *)

(** [v.get(key)]: [None] when the key is absent; only dictionaries have
    the method. *)
Definition dict_get (v : json) (key : string) : M json :=
  match v with
  | JObj m => ret (default JNull (m !! key))
  | _ => raise (PyError "AttributeError")
  end.

(** [v.get(key, dflt)] *)
Definition dict_get_default (v : json) (key : string) (dflt : json) : M json :=
  match v with
  | JObj m => ret (default dflt (m !! key))
  | _ => raise (PyError "AttributeError")
  end.

(** The elements a [for] loop visits: the items of a list, the keys of a
    dictionary, the characters of a string; other values are not iterable. *)
Definition py_iter (v : json) : M (list json) :=
  match v with
  | JList l => ret l
  | JObj m => ret ((λ kv, JStr kv.1) <$> map_to_list m)
  | JStr s => ret ((λ a, JStr (String a EmptyString)) <$> String.list_ascii_of_string s)
  | _ => raise (PyError "TypeError")
  end.

(** [str.isspace] on the ASCII range. *)
Definition is_space (a : ascii) : bool :=
  let n := nat_of_ascii a in
  ((9 <=? n) && (n <=? 13) || (28 <=? n) && (n <=? 32))%nat.

Fixpoint lstrip (s : string) : string :=
  match s with
  | String a s' => if is_space a then lstrip s' else s
  | EmptyString => EmptyString
  end.

(** [s.strip()] *)
Definition strip (s : string) : string :=
  String.rev (lstrip (String.rev (lstrip s))).

(** ** Configuration *)

(** The module-level globals, each the result of [os.getenv]. *)
Record config := {
  OPENAI_API_KEY : option string;
  SEARCH_ENGINE : option string;
  GOOGLE_API_KEY : option string;
  GOOGLE_CSE_ID : option string;
  SERPAPI_API_KEY : option string
}.

(** [not v] for a value returned by [os.getenv]: unset or empty. *)
Definition unset (v : option string) : bool :=
  match v with
  | None => true
  | Some s => String.eqb s ""
  end.

Definition env_json (v : option string) : json :=
  match v with
  | None => JNull
  | Some s => JStr s
  end.

(** The default of [image.get('title', ...)]. *)
Definition no_description : string := "Нет описания".

(** The selected image, [{'url': ..., 'description': ...}]. *)
Record best_image := {
  url : json;
  description : json
}.

(** The two locals of the scoring loop. *)
Record scorer := {
  best : option best_image;
  best_score : spec_float
}.

(** [float('-inf')] *)
Definition neg_infinity : spec_float := S754_infinity true.

(** The integer [0] of the [except ValueError] branch, as the float it
    compares equal to. *)
Definition zero_score : spec_float := S754_zero false.

(** [a > b] on floats *)
Definition float_gt (a b : spec_float) : bool := SFltb b a.

(** The state after one more GET has been issued. *)
Definition issued (url : string) (p : params) (s : state) : state :=
  {| trace := trace s ++ [EvGet url p];
     gets := S (gets s); invokes := invokes s |}.

(** [max_retries=5] *)
Definition default_max_retries : Z := 5.

Section Program.

Context (w : world) (cfg : config).

Definition requests_get (url : string) (p : params) : M response :=
  λ s, (http w (gets s) url p, issued url p s).

Definition llm_invoke (p : prompt) : M string :=
  λ s, (Ok (llm w (invokes s) p),
        {| trace := trace s ++ [EvInvoke p];
           gets := gets s; invokes := S (invokes s) |}).

Definition input : M string :=
  λ s, (Ok (stdin w), logged [EvInput] s).

(** [response.raise_for_status()]: an [HTTPError] for 4xx and 5xx. *)
Definition raise_for_status (r : response) : M unit :=
  if (400 <=? status_code r) && (status_code r <? 600)
  then raise (HTTPError (status_code r))
  else ret tt.

Definition response_json (r : response) : M json :=
  match json_body r with
  | Ok v => ret v
  | Raise e => raise e
  end.

(** ** [make_request_with_retries] *)

(** What one iteration of the [for] loop does to the control flow. *)
Inductive iteration :=
| Continue
| Return (v : json).

(** The body of the loop for one value of [attempt]. *)
Definition attempt_request (url : string) (p : params) (attempt : Z)
    : M iteration :=
  try_except
    (response ← requests_get url p;
     if status_code response =? 429 then
       print MsgRateLimited;;
       sleep (2 ^ attempt);;
       ret Continue
     else
       raise_for_status response;;
       v ← response_json response;
       ret (Return v))
    is_RequestException
    (λ e, print (MsgRequestError e);;
          sleep (2 ^ attempt);;
          ret Continue).

(** [for attempt in range(attempt, attempt + remaining): ...], followed by
    the code after the loop.  Python's [None] is [JNull]. *)
Fixpoint retry_loop (url : string) (p : params) (attempt : nat)
    (remaining : nat) : M json :=
  match remaining with
  | O => print MsgRetriesExhausted;; ret JNull
  | S remaining' =>
      it ← attempt_request url p (Z.of_nat attempt);
      match it with
      | Return v => ret v
      | Continue => retry_loop url p (S attempt) remaining'
      end
  end.

Definition make_request_with_retries (url : string) (p : params)
    (max_retries : Z) : M json :=
  retry_loop url p 0 (Z.to_nat max_retries).

(** ** Search adapters *)

Definition google_url : string := "https://www.googleapis.com/customsearch/v1".

Definition google_params (query : string) : params :=
  [("q", JStr query); ("cx", env_json (GOOGLE_CSE_ID cfg));
   ("key", env_json (GOOGLE_API_KEY cfg)); ("searchType", JStr "image");
   ("num", JInt 5)].

Definition search_images_google (query : string) : M json :=
  data ← make_request_with_retries google_url (google_params query)
            default_max_retries;
  if truthy data then dict_get_default data "items" (JList [])
  else ret (JList []).

Definition serpapi_url : string := "https://serpapi.com/search".

Definition duckduckgo_params (query : string) : params :=
  [("q", JStr query); ("engine", JStr "duckduckgo");
   ("api_key", env_json (SERPAPI_API_KEY cfg)); ("no_html", JStr "1");
   ("output", JStr "json")].

Definition search_images_duckduckgo (query : string) : M json :=
  data ← make_request_with_retries serpapi_url (duckduckgo_params query)
            default_max_retries;
  if truthy data then dict_get_default data "images_results" (JList [])
  else ret (JList []).

(** ** Keyword extraction *)

Definition require_openai_key : M unit :=
  if unset (OPENAI_API_KEY cfg) then
    print MsgNoOpenAIKey;;
    sys_exit 1
  else ret tt.

Definition extract_keywords (text : string) : M string :=
  require_openai_key;;
  keywords ← llm_invoke (KeywordsPrompt text);
  ret (strip keywords).

(** ** Relevance scoring *)

(** [float(score_text.strip())] with its [except ValueError] branch. *)
Definition parse_score (score_text : string) : spec_float :=
  match py_float w (strip score_text) with
  | Some score => score
  | None => zero_score
  end.

(** The body of the [for image in images] loop. *)
Definition score_image (text : string) (image : json) (acc : scorer)
    : M scorer :=
  link ← dict_get image "link";
  image_url ← (if truthy link then ret link else dict_get image "thumbnail");
  if negb (truthy image_url) then ret acc
  else
    score_text ← llm_invoke (RelevancePrompt text image_url);
    let score := parse_score score_text in
    if float_gt score (best_score acc) then
      title ← dict_get_default image "title" (JStr no_description);
      ret {| best := Some {| url := image_url; description := title |};
             best_score := score |}
    else ret acc.

Fixpoint score_loop (text : string) (images : list json) (acc : scorer)
    : M scorer :=
  match images with
  | [] => ret acc
  | image :: images' =>
      acc' ← score_image text image acc;
      score_loop text images' acc'
  end.

Definition evaluate_relevance (images : json) (text : string)
    : M (option best_image) :=
  require_openai_key;;
  items ← py_iter images;
  acc ← score_loop text items {| best := None; best_score := neg_infinity |};
  ret (best acc).

(** ** The orchestrator *)

Definition engine_is (name : string) : bool :=
  match SEARCH_ENGINE cfg with
  | Some s => String.eqb s name
  | None => false
  end.

(** The configuration checks at the top of [main]. *)
Definition check_configuration : M unit :=
  require_openai_key;;
  if engine_is "google" then
    if unset (GOOGLE_API_KEY cfg) || unset (GOOGLE_CSE_ID cfg) then
      print MsgNoGoogleKeys;;
      sys_exit 1
    else ret tt
  else if engine_is "duckduckgo" then
    if unset (SERPAPI_API_KEY cfg) then
      print MsgNoSerpApiKey;;
      sys_exit 1
    else ret tt
  else
    print MsgBadSearchEngine;;
    sys_exit 1.

(** What follows the search in [main]. *)
Definition report (images : json) (text : string) : M unit :=
  if negb (truthy images) then print MsgNoImagesFound
  else
    print MsgScoring;;
    chosen ← evaluate_relevance images text;
    match chosen with
    | Some b =>
        print (MsgChosenUrl (url b));;
        print (MsgChosenDescription (description b))
    | None => print MsgNoRelevantImage
    end.

Definition main : M unit :=
  check_configuration;;
  text ← input;
  print MsgExtracting;;
  keywords ← extract_keywords text;
  print (MsgKeywords keywords);;
  print (MsgSearching (SEARCH_ENGINE cfg));;
  if engine_is "google" then
    images ← search_images_google keywords;
    report images text
  else if engine_is "duckduckgo" then
    images ← search_images_duckduckgo keywords;
    report images text
  else print MsgInvalidEngine.

End Program.

(** ** A reference [float] for ASCII strings

    Python's [float(s)] restricted to ASCII input: optional sign, then
    [inf], [infinity] or [nan] in any letter case, or a decimal literal
    [digitpart] [.] [digitpart] [exponent] with digits on at least one
    side of the point, where a [digitpart] may group digits with single
    underscores.  The value is rounded to nearest-even binary64. *)

Definition digit_of (a : ascii) : option Z :=
  let n := Z.of_nat (nat_of_ascii a) in
  if (48 <=? n) && (n <=? 57) then Some (n - 48) else None.

Definition lower (a : ascii) : ascii :=
  let n := nat_of_ascii a in
  if ((65 <=? n) && (n <=? 90))%nat then ascii_of_nat (n + 32) else a.

(** The rest of a [digitpart] after its first digit: the value read so
    far, the number of digits read, and what is left of the input. *)
Fixpoint digitpart_tail (s : list ascii) (value : Z) (count : Z)
    : Z * Z * list ascii :=
  match s with
  | a :: s' =>
      match digit_of a with
      | Some d => digitpart_tail s' (10 * value + d) (count + 1)
      | None =>
          if Ascii.eqb a "_" then
            match s' with
            | b :: s'' =>
                match digit_of b with
                | Some d => digitpart_tail s'' (10 * value + d) (count + 1)
                | None => (value, count, s)
                end
            | [] => (value, count, s)
            end
          else (value, count, s)
      end
  | [] => (value, count, [])
  end.

Definition digitpart (s : list ascii) : option (Z * Z * list ascii) :=
  match s with
  | a :: s' =>
      match digit_of a with
      | Some d => Some (digitpart_tail s' d 1)
      | None => None
      end
  | [] => None
  end.

Definition split_sign (s : list ascii) : bool * list ascii :=
  match s with
  | a :: s' =>
      if Ascii.eqb a "-" then (true, s')
      else if Ascii.eqb a "+" then (false, s')
      else (false, s)
  | [] => (false, [])
  end.

(** [(-1)^neg * m * 10^e10], rounded to binary64. *)
Definition decimal_to_float (neg : bool) (m : Z) (e10 : Z) : spec_float :=
  match m with
  | Zpos p =>
      if 0 <=? e10 then
        binary_round 53 1024 neg (p * Z.to_pos (10 ^ e10)) 0
      else
        SFdiv 53 1024 (S754_finite neg p 0)
          (S754_finite false (Z.to_pos (10 ^ (- e10))) 0)
  | _ => S754_zero neg
  end.

Definition parse_exponent (s : list ascii) : option Z :=
  match s with
  | [] => Some 0
  | a :: s' =>
      if Ascii.eqb (lower a) "e" then
        let '(neg, s'') := split_sign s' in
        match digitpart s'' with
        | Some (v, _, []) => Some (if neg then - v else v)
        | _ => None
        end
      else None
  end.

Definition parse_decimal (neg : bool) (s : list ascii) : option spec_float :=
  let '(ip, ilen, s1) := default (0, 0, s) (digitpart s) in
  let '(fp, flen, s2) :=
    match s1 with
    | a :: s1' =>
        if Ascii.eqb a "." then default (0, 0, s1') (digitpart s1')
        else (0, 0, s1)
    | [] => (0, 0, [])
    end in
  if ilen + flen =? 0 then None
  else
    match parse_exponent s2 with
    | Some e => Some (decimal_to_float neg (ip * 10 ^ flen + fp) (e - flen))
    | None => None
    end.

Definition ascii_float (s : string) : option spec_float :=
  let '(neg, body) := split_sign (String.list_ascii_of_string (strip s)) in
  let word := String.string_of_list_ascii (lower <$> body) in
  if String.eqb word "inf" || String.eqb word "infinity" then
    Some (S754_infinity neg)
  else if String.eqb word "nan" then Some S754_nan
  else parse_decimal neg body.

(** ** Scripted worlds *)

Definition news : string := "Wildfires spread across the region".


(** A server that answers the [n]-th GET with the [n]-th entry of a script
    and refuses connections once the script is used up. *)
Definition scripted_http (script : list (result response))
    : nat → string → params → result response :=
  λ n _ _, nth n script (Raise (RequestError "ConnectionError")).

(** A model that answers the [n]-th call with the [n]-th entry. *)
Definition scripted_llm (script : list string) : nat → prompt → string :=
  λ n _, nth n script EmptyString.

Definition scripted (responses : list (result response))
    (completions : list string) : world :=
  {| http := scripted_http responses;
     llm := scripted_llm completions;
     stdin := news;
     py_float := ascii_float |}.

Definition respond (status : Z) (body : json) : result response :=
  Ok {| status_code := status; json_body := Ok body |}.

Definition google_config : config :=
  {| OPENAI_API_KEY := Some "sk-test";
     SEARCH_ENGINE := Some "google";
     GOOGLE_API_KEY := Some "google-key";
     GOOGLE_CSE_ID := Some "cse-id";
     SERPAPI_API_KEY := None |}.

Definition duckduckgo_config : config :=
  {| OPENAI_API_KEY := Some "sk-test";
     SEARCH_ENGINE := Some "duckduckgo";
     GOOGLE_API_KEY := None;
     GOOGLE_CSE_ID := None;
     SERPAPI_API_KEY := Some "serpapi-key" |}.

Definition fire1 : dict :=
  {[ "link" := JStr "http://a/1.jpg"; "title" := JStr "Fire1" ]}.

Definition fire2 : dict :=
  {[ "link" := JStr "http://a/2.jpg"; "title" := JStr "Fire2" ]}.

(** A candidate of the second provider: no [link], no [title]. *)
Definition thumb : dict := {[ "thumbnail" := JStr "http://b/t.jpg" ]}.

(** A candidate whose [link] is present but empty. *)
Definition empty_link : dict :=
  {[ "link" := JStr ""; "thumbnail" := JStr "http://b/t.jpg" ]}.

(** The sleeps of a trace, in order. *)
Definition sleeps (t : list event) : list Z :=
  omap (λ e, match e with EvSleep d => Some d | _ => None end) t.

(** ** Outcomes of one attempt *)

(** The attempts the loop of [make_request_with_retries] retries: the GET
    or the decoding raised a [RequestException], or the status is 429 or
    another 4xx or 5xx. *)
Definition transient (o : result response) : bool :=
  match o with
  | Raise e => is_RequestException e
  | Ok r =>
      (status_code r =? 429)
      || (400 <=? status_code r) && (status_code r <? 600)
      || match json_body r with
         | Ok _ => false
         | Raise e => is_RequestException e
         end
  end.

(** What is printed while backing off from a retried attempt. *)
Definition backoff_message (o : result response) : message :=
  match o with
  | Raise e => MsgRequestError e
  | Ok r =>
      if status_code r =? 429 then MsgRateLimited
      else if (400 <=? status_code r) && (status_code r <? 600)
      then MsgRequestError (HTTPError (status_code r))
      else match json_body r with
           | Ok _ => MsgRateLimited
           | Raise e => MsgRequestError e
           end
  end.

(** Every exception the transport raises, from the GET or from decoding
    the body, is a [RequestException]. *)
Definition raises_only_RequestException (o : result response) : Prop :=
  match o with
  | Raise e => is_RequestException e = true
  | Ok r =>
      match json_body r with
      | Ok _ => True
      | Raise e => is_RequestException e = true
      end
  end.

(** [[2^a; 2^(a+1); ...]], [n] terms. *)
Fixpoint backoff_schedule (a : nat) (n : nat) : list Z :=
  match n with
  | O => []
  | S n' => 2 ^ Z.of_nat a :: backoff_schedule (S a) n'
  end.

(** The status code of an attempt that got a response. *)
Definition status_of (o : result response) : option Z :=
  match o with
  | Ok r => Some (status_code r)
  | Raise _ => None
  end.

(** ** The scoring loop as a fold *)

(** [image.get('link') or image.get('thumbnail')] on a dictionary. *)
Definition resolve_url (image : dict) : json :=
  let link := default JNull (image !! "link") in
  if truthy link then link else default JNull (image !! "thumbnail").

(** The dictionary the loop stores for a candidate. *)
Definition image_of (image : dict) : best_image :=
  {| url := resolve_url image;
     description := default (JStr no_description) (image !! "title") |}.

(** [if score > best_score: best_score = score; best_image = b] *)
Definition consider (b : best_image) (score : spec_float) (acc : scorer)
    : scorer :=
  if float_gt score (best_score acc) then
    {| best := Some b; best_score := score |}
  else acc.

(** The candidates with a resolved URL, each with the score the loop gives
    it when the first model call of the loop is the [n]-th of the run. *)
Fixpoint scored (w : world) (text : string) (images : list dict) (n : nat)
    : list (best_image * spec_float) :=
  match images with
  | [] => []
  | image :: images' =>
      if truthy (resolve_url image) then
        (image_of image,
         parse_score w (llm w n (RelevancePrompt text (resolve_url image))))
        :: scored w text images' (S n)
      else scored w text images' n
  end.

Definition select_best (l : list (best_image * spec_float)) (acc : scorer)
    : scorer :=
  foldl (λ acc x, consider x.1 x.2 acc) acc l.

(** The locals before the loop. *)
Definition no_best : scorer := {| best := None; best_score := neg_infinity |}.

(** The prompts the loop sends, in order. *)
Definition relevance_prompts (text : string) (images : list dict)
    : list prompt :=
  omap (λ image,
          if truthy (resolve_url image)
          then Some (RelevancePrompt text (resolve_url image))
          else None) images.

(** The state after the model has been called with the prompts [ps]. *)
Definition invoked (ps : list prompt) (s : state) : state :=
  {| trace := trace s ++ (EvInvoke <$> ps);
     gets := gets s;
     invokes := (length ps + invokes s)%nat |}.

(** The completion the loop gets for [image] when it follows the
    candidates [pre] in a loop entered in state [s]: the model has been
    called once for each candidate of [pre] with a resolved URL. *)
Definition completion_for (w : world) (text : string) (pre : list dict)
    (image : dict) (s : state) : string :=
  llm w (length (relevance_prompts text pre) + invokes s)%nat
    (RelevancePrompt text (resolve_url image)).

(** What the fold maintains: the best score is that of the stored image,
    exceeds [-inf], and is exceeded by no candidate seen so far. *)
Definition best_of (l : list (best_image * spec_float)) (acc : scorer)
    : Prop :=
  match best acc with
  | None => best_score acc = neg_infinity ∧
            ∀ x, x ∈ l → float_gt x.2 neg_infinity = false
  | Some b => (b, best_score acc) ∈ l ∧
              float_gt (best_score acc) neg_infinity = true ∧
              ∀ x, x ∈ l → float_gt x.2 (best_score acc) = false
  end.

(** ** Configuration and the stages of [main] *)

(** The language-model key is set, the search engine is one of the two
    providers, and the credentials of that provider are set. *)
Definition configured (cfg : config) : bool :=
  negb (unset (OPENAI_API_KEY cfg))
  && (engine_is cfg "google"
      && negb (unset (GOOGLE_API_KEY cfg))
      && negb (unset (GOOGLE_CSE_ID cfg))
      || engine_is cfg "duckduckgo" && negb (unset (SERPAPI_API_KEY cfg))).

(** The adapter [main] dispatches to. *)
Definition selected_search (w : world) (cfg : config) (query : string)
    : M json :=
  if engine_is cfg "google" then search_images_google w cfg query
  else search_images_duckduckgo w cfg query.

(** The keywords [main] searches for. *)
Definition keywords_of (w : world) : string :=
  strip (llm w 0 (KeywordsPrompt (stdin w))).

(** The state in which [main] starts the search: the text has been read
    and the keywords extracted with the first model call. *)
Definition searching (w : world) (cfg : config) : state :=
  {| trace := [EvInput; EvPrint MsgExtracting;
               EvInvoke (KeywordsPrompt (stdin w));
               EvPrint (MsgKeywords (keywords_of w));
               EvPrint (MsgSearching (SEARCH_ENGINE cfg))];
     gets := 0;
     invokes := 1 |}.

(** ** The order of floats *)

Definition is_nan (f : spec_float) : bool :=
  match f with
  | S754_nan => true
  | _ => false
  end.

(** [math.isfinite] *)
Definition is_finite (f : spec_float) : bool :=
  match f with
  | S754_zero _ | S754_finite _ _ _ => true
  | S754_infinity _ | S754_nan => false
  end.

(** Floats other than NaN are ordered by class (negative infinity,
    negative, zero, positive, positive infinity), then by signed exponent,
    then by signed mantissa. *)
Definition rank_class (f : spec_float) : Z :=
  match f with
  | S754_infinity true => -2
  | S754_finite true _ _ => -1
  | S754_zero _ | S754_nan => 0
  | S754_finite false _ _ => 1
  | S754_infinity false => 2
  end.

Definition rank_exponent (f : spec_float) : Z :=
  match f with
  | S754_finite false _ e => e
  | S754_finite true _ e => - e
  | _ => 0
  end.

Definition rank_mantissa (f : spec_float) : Z :=
  match f with
  | S754_finite false m _ => Zpos m
  | S754_finite true m _ => Zneg m
  | _ => 0
  end.

Definition rank_lt (a b : spec_float) : Prop :=
  rank_class a < rank_class b ∨
  rank_class a = rank_class b ∧
  (rank_exponent a < rank_exponent b ∨
   rank_exponent a = rank_exponent b ∧ rank_mantissa a < rank_mantissa b).

(** ** Further vocabulary for the fetcher *)

(** How an attempt ends the loop, if it does: [None] when the attempt is
    retried, the decoded body when the status is neither 429 nor an error
    and the body decodes, the exception when the GET or the decoding raises
    something that is not a [RequestException]. *)
Definition settles (o : result response) : option (result json) :=
  match o with
  | Raise e => if is_RequestException e then None else Some (Raise e)
  | Ok r =>
      if (status_code r =? 429)
         || (400 <=? status_code r) && (status_code r <? 600)
      then None
      else match json_body r with
           | Ok v => Some (Ok v)
           | Raise e => if is_RequestException e then None else Some (Raise e)
           end
  end.

(** The seconds slept in a trace. *)
Definition total_sleep (t : list event) : Z := foldr Z.add 0 (sleeps t).

(** The GETs of a trace, in order. *)
Definition requests (t : list event) : list (string * params) :=
  omap (λ e, match e with EvGet u p => Some (u, p) | _ => None end) t.

(** ** Further vocabulary for the scorer *)

Definition is_dict (v : json) : bool :=
  match v with
  | JObj _ => true
  | _ => false
  end.

(** The candidates the loop does not skip. *)
Definition resolvable (image : dict) : bool := truthy (resolve_url image).

(** The configuration with another [SERPAPI_API_KEY]. *)
Definition with_serpapi_key (cfg : config) (v : option string) : config :=
  {| OPENAI_API_KEY := OPENAI_API_KEY cfg;
     SEARCH_ENGINE := SEARCH_ENGINE cfg;
     GOOGLE_API_KEY := GOOGLE_API_KEY cfg;
     GOOGLE_CSE_ID := GOOGLE_CSE_ID cfg;
     SERPAPI_API_KEY := v |}.

(** The configuration with other [GOOGLE_API_KEY] and [GOOGLE_CSE_ID]. *)
Definition with_google_keys (cfg : config) (key cse : option string)
    : config :=
  {| OPENAI_API_KEY := OPENAI_API_KEY cfg;
     SEARCH_ENGINE := SEARCH_ENGINE cfg;
     GOOGLE_API_KEY := key;
     GOOGLE_CSE_ID := cse;
     SERPAPI_API_KEY := SERPAPI_API_KEY cfg |}.

(** A computation that, from any state and however it ends, issues at most
    [g] GETs and sleeps at most [t] seconds. *)
Definition net_cost {A} (g : nat) (t : Z) (m : M A) : Prop :=
  ∀ s r s',
    m s = (r, s') →
    (gets s' ≤ gets s + g)%nat ∧
    total_sleep (trace s') ≤ total_sleep (trace s) + t.

(** The three reports [main] ends with once the search has returned
    the candidates [images]. *)
Definition final_report (w : world) (images : list dict) (s : state)
    : state :=
  match images with
  | [] => logged [EvPrint MsgNoImagesFound] s
  | _ :: _ =>
      let s1 :=
        invoked (relevance_prompts (stdin w) images)
          (logged [EvPrint MsgScoring] s) in
      match best (select_best
                    (scored w (stdin w) images (invokes s)) no_best) with
      | Some b =>
          logged [EvPrint (MsgChosenUrl (url b));
                  EvPrint (MsgChosenDescription (description b))] s1
      | None => logged [EvPrint MsgNoRelevantImage] s1
      end
  end.

(** * Properties *)

(** ** The monad *)

Lemma logged_logged es1 es2 s :
  logged es2 (logged es1 s) = logged (es1 ++ es2) s.
Proof. unfold logged; simpl. by rewrite app_assoc. Qed.

Lemma bind_run {A B} (m : M A) (k : A → M B) s :
  (m ≫= k) s =
  match m s with
  | (Ok a, s') => k a s'
  | (Raise e, s') => (Raise e, s')
  end.
Proof. reflexivity. Qed.

Lemma bind_ok {A B} (m : M A) (k : A → M B) s a s' :
  m s = (Ok a, s') → (m ≫= k) s = k a s'.
Proof. intros H. by rewrite bind_run, H. Qed.

Lemma bind_raise {A B} (m : M A) (k : A → M B) s e s' :
  m s = (Raise e, s') → (m ≫= k) s = (Raise e, s').
Proof. intros H. by rewrite bind_run, H. Qed.

Lemma backoff_run {A} (m : message) (d : Z) (x : A) s :
  (print m;; sleep d;; mret x) s = (Ok x, logged [EvPrint m; EvSleep d] s).
Proof.
  cbv [mbind M_bind bind mret M_ret ret print sleep emit logged]; simpl.
  by rewrite <- app_assoc.
Qed.

Lemma sleeps_app t1 t2 : sleeps (t1 ++ t2) = sleeps t1 ++ sleeps t2.
Proof. unfold sleeps. apply omap_app. Qed.

(** ** The fetcher *)

Section Fetcher.

Context (w : world) (url : string) (p : params).

(** A retried attempt: one GET, one message, one sleep of [2^attempt]. *)
Lemma attempt_request_transient a s :
  transient (http w (gets s) url p) = true →
  attempt_request w url p a s =
    (Ok Continue,
     logged [EvPrint (backoff_message (http w (gets s) url p)); EvSleep (2 ^ a)]
       (issued url p s)).
Proof.
  unfold attempt_request, try_except, requests_get, transient, backoff_message.
  rewrite bind_run.
  destruct (http w (gets s) url p) as [r|e]; simpl.
  - destruct (status_code r =? 429) eqn:E429; simpl.
    + intros _. apply backoff_run.
    + unfold raise_for_status, response_json. rewrite !bind_run.
      destruct ((400 <=? status_code r) && (status_code r <? 600)) eqn:Eerr;
        simpl.
      * intros _. apply backoff_run.
      * destruct (json_body r) as [v|e]; simpl; [done|].
        intros ->. apply backoff_run.
  - intros ->. apply backoff_run.
Qed.

(** A successful attempt: a status that is neither 429 nor an error, and a
    body that decodes. *)
Lemma attempt_request_success a s r v :
  http w (gets s) url p = Ok r →
  status_code r ≠ 429 →
  ¬ (400 ≤ status_code r < 600) →
  json_body r = Ok v →
  attempt_request w url p a s = (Ok (Return v), issued url p s).
Proof.
  intros Hr H429 Herr Hv.
  unfold attempt_request, try_except, requests_get.
  rewrite bind_run, Hr; simpl.
  destruct (Z.eqb_spec (status_code r) 429) as [|_]; [done|].
  unfold raise_for_status, response_json. rewrite !bind_run.
  destruct ((400 <=? status_code r) && (status_code r <? 600)) eqn:E.
  - apply andb_true_iff in E as [?%Z.leb_le ?%Z.ltb_lt]. lia.
  - simpl. by rewrite Hv.
Qed.

(** An attempt either completes or raises something that is not a
    [RequestException]. *)
Lemma attempt_request_catches a s e s' :
  attempt_request w url p a s = (Raise e, s') →
  is_RequestException e = false ∧
  ¬ raises_only_RequestException (http w (gets s) url p).
Proof.
  unfold attempt_request, try_except, requests_get, raises_only_RequestException.
  rewrite bind_run.
  destruct (http w (gets s) url p) as [r|e0]; simpl.
  - destruct (status_code r =? 429); simpl; [done|].
    unfold raise_for_status, response_json. rewrite !bind_run.
    destruct ((400 <=? status_code r) && (status_code r <? 600)); simpl;
      [done|].
    destruct (json_body r) as [v|e0]; simpl; [done|].
    destruct (is_RequestException e0) eqn:E; simpl; [done|].
    intros [= <- <-]. split; [done|congruence].
  - destruct (is_RequestException e0) eqn:E; simpl; [done|].
    intros [= <- <-]. split; [done|congruence].
Qed.

(** When every remaining attempt is retried, the loop runs out, sleeps
    [2^attempt] after each attempt, and returns [None]. *)
Lemma retry_loop_exhausted n : ∀ a s,
  (∀ k, (k < n)%nat → transient (http w (gets s + k)%nat url p) = true) →
  ∃ s',
    retry_loop w url p a n s = (Ok JNull, s') ∧
    sleeps (trace s') = sleeps (trace s) ++ backoff_schedule a n ∧
    gets s' = (gets s + n)%nat ∧
    invokes s' = invokes s.
Proof.
  induction n as [|n IH]; intros a s Hall; simpl.
  - eexists. split; [reflexivity|]. simpl.
    rewrite sleeps_app. simpl. rewrite !app_nil_r. split; [done|]. lia.
  - assert (H0 : transient (http w (gets s) url p) = true).
    { rewrite <- (Nat.add_0_r (gets s)). apply Hall. lia. }
    erewrite bind_ok; [|by apply attempt_request_transient].
    set (s1 := logged _ _).
    destruct (IH (S a) s1) as (s' & Hrun & Hsl & Hg & Hi).
    { intros k Hk. subst s1; simpl.
      replace (S (gets s + k))%nat with (gets s + S k)%nat by lia.
      apply Hall. lia. }
    exists s'. split; [done|]. rewrite Hsl, Hg, Hi. subst s1; simpl.
    rewrite !sleeps_app. simpl. rewrite app_nil_r, <- app_assoc. simpl.
    repeat split; lia.
Qed.

(** The loop never raises when the transport raises nothing but
    [RequestException]s. *)
Lemma retry_loop_returns n : ∀ a s,
  (∀ k, (k < n)%nat →
        raises_only_RequestException (http w (gets s + k)%nat url p)) →
  ∃ v s', retry_loop w url p a n s = (Ok v, s').
Proof.
  induction n as [|n IH]; intros a s Hall; simpl.
  - by eexists _, _.
  - rewrite bind_run.
    destruct (attempt_request w url p (Z.of_nat a) s) as [[[|v]|e] s1] eqn:E.
    + apply IH. intros k Hk.
      assert (gets s1 = S (gets s)) as ->.
      { revert E. unfold attempt_request, try_except, requests_get.
        rewrite bind_run.
        destruct (http w (gets s) url p) as [r|e0]; simpl.
        - destruct (status_code r =? 429); simpl; [by intros [= <-]|].
          unfold raise_for_status, response_json. rewrite !bind_run.
          destruct ((400 <=? status_code r) && (status_code r <? 600)); simpl;
            [by intros [= <-]|].
          destruct (json_body r) as [v|e0]; simpl; [done|].
          destruct (is_RequestException e0); simpl; [by intros [= <-]|done].
        - destruct (is_RequestException e0); simpl; [by intros [= <-]|done]. }
      replace (S (gets s) + k)%nat with (gets s + S k)%nat by lia.
      apply Hall. lia.
    + by eexists _, _.
    + apply attempt_request_catches in E as [_ []].
      rewrite <- (Nat.add_0_r (gets s)). apply Hall. lia.
Qed.

End Fetcher.

(** The loop never lets a [RequestException] out. *)
Lemma retry_loop_raises w url p n : ∀ a s e s',
  retry_loop w url p a n s = (Raise e, s') →
  is_RequestException e = false.
Proof.
  induction n as [|n IH]; intros a s e s'; simpl; [done|].
  rewrite bind_run.
  destruct (attempt_request w url p (Z.of_nat a) s) as [[[|v]|e0] s1] eqn:E.
  - apply IH.
  - done.
  - intros [= <- <-]. by apply attempt_request_catches in E as [? _].
Qed.

Lemma status_429_transient o : status_of o = Some 429 → transient o = true.
Proof. destruct o as [r|e]; simpl; [|done]. by intros [= ->]. Qed.

(** C1: on the responses 429, 429, 200 the fetcher sleeps exactly twice,
    for [2^0] and then [2^1] time units, and returns the body of the 200
    response; on [max_retries] consecutive 429 responses it returns [None]
    (it does not raise), having slept [2^attempt] after each attempt. *)
Theorem make_request_with_retries_rate_limited w url p max_retries s :
  (∀ r body,
     3 ≤ max_retries →
     status_of (http w (gets s) url p) = Some 429 →
     status_of (http w (gets s + 1) url p) = Some 429 →
     http w (gets s + 2) url p = Ok r →
     status_code r = 200 →
     json_body r = Ok body →
     ∃ s',
       make_request_with_retries w url p max_retries s = (Ok body, s') ∧
       sleeps (trace s') = sleeps (trace s) ++ [2 ^ 0; 2 ^ 1]) ∧
  ((∀ k, (k < Z.to_nat max_retries)%nat →
         status_of (http w (gets s + k) url p) = Some 429) →
   ∃ s',
     make_request_with_retries w url p max_retries s = (Ok JNull, s') ∧
     sleeps (trace s') =
       sleeps (trace s) ++ backoff_schedule 0 (Z.to_nat max_retries)).
Proof.
  unfold make_request_with_retries. split.
  - intros r body Hmax H0 H1 H2 H200 Hbody.
    destruct (Z.to_nat max_retries) as [|[|[|n]]] eqn:En; try lia.
    simpl.
    erewrite bind_ok;
      [|by apply attempt_request_transient, status_429_transient].
    set (s1 := logged _ _). cbv iota.
    erewrite bind_ok; first last.
    { apply attempt_request_transient, status_429_transient.
      subst s1; simpl. by rewrite <- Nat.add_1_r. }
    set (s2 := logged _ _). cbv iota.
    erewrite bind_ok; first last.
    { eapply attempt_request_success; [|by rewrite H200|by rewrite H200; lia|done].
      subst s2 s1; simpl. rewrite <- H2. f_equal. lia. }
    cbv iota. eexists. split; [reflexivity|].
    subst s2 s1; simpl. rewrite !sleeps_app; simpl.
    by rewrite !app_nil_r, <- app_assoc.
  - intros Hall.
    destruct (retry_loop_exhausted w url p (Z.to_nat max_retries) 0%nat s)
      as (s' & Hrun & Hsl & _).
    { intros k Hk. by apply status_429_transient, Hall. }
    by exists s'.
Qed.

Lemma make_request_with_retries_rate_limited_witness :
  ∃ s',
    make_request_with_retries
      (scripted [respond 429 JNull; respond 429 JNull;
                 respond 200 (JObj {[ "items" := JList [] ]})] [])
      google_url [] default_max_retries init
    = (Ok (JObj {[ "items" := JList [] ]}), s') ∧
    sleeps (trace s') = sleeps (trace init) ++ [2 ^ 0; 2 ^ 1].
Proof.
  eapply (proj1 (make_request_with_retries_rate_limited _ _ _ _ _));
    [unfold default_max_retries; lia|reflexivity..].
Defined.

(** C6, as amended: after [max_retries] attempts that each end in a 429, in
    another 4xx or 5xx status, or in a [RequestException] raised by the GET
    or by decoding the body (as for a 2xx response whose body is not valid
    JSON), the fetcher has issued [max_retries] GETs and returns [None];
    whatever the attempts do, no [RequestException] escapes; and when the
    transport raises nothing but [RequestException]s the fetcher returns. *)
Theorem make_request_with_retries_contains_RequestException
    w url p max_retries s :
  ((∀ k, (k < Z.to_nat max_retries)%nat →
         transient (http w (gets s + k) url p) = true) →
   ∃ s',
     make_request_with_retries w url p max_retries s = (Ok JNull, s') ∧
     gets s' = (gets s + Z.to_nat max_retries)%nat) ∧
  (∀ r e,
     200 ≤ status_code r < 300 →
     json_body r = Raise e →
     is_RequestException e = true →
     transient (Ok r) = true) ∧
  (∀ e s',
     make_request_with_retries w url p max_retries s = (Raise e, s') →
     is_RequestException e = false) ∧
  ((∀ k, (k < Z.to_nat max_retries)%nat →
         raises_only_RequestException (http w (gets s + k) url p)) →
   ∃ v s', make_request_with_retries w url p max_retries s = (Ok v, s')).
Proof.
  unfold make_request_with_retries. repeat split.
  - intros Hall.
    destruct (retry_loop_exhausted w url p (Z.to_nat max_retries) 0%nat s Hall)
      as (s' & Hrun & _ & Hg & _).
    by exists s'.
  - intros r e _ Hbody He. simpl. rewrite Hbody, He. apply orb_true_r.
  - intros e s'. apply retry_loop_raises.
  - apply retry_loop_returns.
Qed.

Lemma make_request_with_retries_contains_RequestException_witness :
  ∃ s',
    make_request_with_retries
      (scripted
         (replicate 5
            (Ok {| status_code := 200;
                   json_body := Raise (RequestError "JSONDecodeError") |})) [])
      serpapi_url [] default_max_retries init
    = (Ok JNull, s') ∧
    gets s' = (gets init + Z.to_nat default_max_retries)%nat.
Proof.
  apply (proj1 (make_request_with_retries_contains_RequestException _ _ _ _ _)).
  intros k Hk.
  do 5 (destruct k as [|k]; [reflexivity|]).
  unfold default_max_retries in Hk. lia.
Defined.

(** C6, as stated, fails: an exception that is not a [RequestException],
    here raised by the first GET, escapes to the caller. *)
Lemma make_request_with_retries_lets_other_exceptions_escape :
  ¬ (∀ w url p max_retries s,
       ∃ v s', make_request_with_retries w url p max_retries s = (Ok v, s')) ∧
  make_request_with_retries
    (scripted [Raise (PyError "KeyboardInterrupt")] [])
    google_url [] default_max_retries init
  = (Raise (PyError "KeyboardInterrupt"), issued google_url [] init).
Proof.
  split; [|reflexivity].
  intros H.
  destruct (H (scripted [Raise (PyError "KeyboardInterrupt")] [])
              google_url [] default_max_retries init) as (v & s' & Hrun).
  discriminate Hrun.
Qed.

(** ** Floats *)

Lemma float_gt_rank a b :
  float_gt a b = true ↔ is_nan a = false ∧ is_nan b = false ∧ rank_lt b a.
Proof.
  unfold float_gt, SFltb, SFcompare, rank_lt.
  destruct a as [sa|sa| |sa ma ea], b as [sb|sb| |sb mb eb];
    try destruct sa; try destruct sb; simpl;
    try (split; [intros ?|intros (? & ? & ?)]; (done || lia)).
  all: change (Pos.compare_cont Eq ?x ?y) with (Pos.compare x y).
  all: destruct (Z.compare_spec eb ea); destruct (Pos.compare_spec mb ma);
    simpl; split; try done; try lia.
  all: intros _; repeat split; lia.
Qed.

Lemma float_gt_trans a b c :
  float_gt a b = true → float_gt b c = true → float_gt a c = true.
Proof.
  rewrite !float_gt_rank. unfold rank_lt.
  intros (? & ? & ?) (? & ? & ?). repeat split; [done..|lia].
Qed.

Lemma float_gt_irrefl a : float_gt a a = false.
Proof.
  apply not_true_is_false. rewrite float_gt_rank. unfold rank_lt.
  intros (_ & _ & ?). lia.
Qed.

(** A finite score beats the initial [-inf]. *)
Lemma finite_gt_neg_infinity f :
  is_finite f = true → float_gt f neg_infinity = true.
Proof. by destruct f as [|[]| |]. Qed.

(** [a <= b] leaves no room for [a > b]. *)
Lemma SFleb_not_gt a b : SFleb a b = true → float_gt a b = false.
Proof.
  intros Hle. apply not_true_is_false. rewrite float_gt_rank.
  revert Hle. unfold SFleb, SFcompare, rank_lt.
  destruct a as [sa|sa| |sa ma ea], b as [sb|sb| |sb mb eb];
    try destruct sa; try destruct sb; simpl; try done;
    try (intros _ (? & ? & ?); lia).
  all: change (Pos.compare_cont Eq ?x ?y) with (Pos.compare x y).
  all: destruct (Z.compare_spec ea eb); destruct (Pos.compare_spec ma mb);
    simpl; try done; intros _ (? & ? & ?); lia.
Qed.

(** [a <= b] and [a != b] give [b > a]. *)
Lemma SFleb_neq_gt a b :
  SFleb a b = true → SFeqb a b = false → float_gt b a = true.
Proof.
  unfold SFleb, SFeqb, float_gt, SFltb.
  by destruct (SFcompare a b) as [[]|].
Qed.

(** ** The scorer *)

Lemma invoked_nil s : invoked [] s = s.
Proof. destruct s. unfold invoked; simpl. by rewrite app_nil_r. Qed.

Lemma invoked_app ps1 ps2 s :
  invoked ps2 (invoked ps1 s) = invoked (ps1 ++ ps2) s.
Proof.
  unfold invoked; simpl.
  rewrite fmap_app, length_app, app_assoc. f_equal. lia.
Qed.

Section Scorer.

Context (w : world) (cfg : config) (text : string).

(** One iteration on a dictionary: skip it when no URL resolves, otherwise
    one model call and one comparison. *)
Lemma score_image_run (image : dict) acc s :
  score_image w text (JObj image) acc s =
    if truthy (resolve_url image) then
      (Ok (consider (image_of image)
             (parse_score w
                (llm w (invokes s) (RelevancePrompt text (resolve_url image))))
             acc),
       invoked [RelevancePrompt text (resolve_url image)] s)
    else (Ok acc, s).
Proof.
  unfold score_image, resolve_url, consider, image_of, resolve_url.
  cbv [dict_get dict_get_default mbind M_bind bind mret M_ret ret llm_invoke].
  destruct (truthy (default JNull (image !! "link"))) eqn:Elink.
  - rewrite Elink. simpl.
    by destruct (float_gt _ (best_score acc)).
  - destruct (truthy (default JNull (image !! "thumbnail"))) eqn:Eth; simpl;
      [|done].
    by destruct (float_gt _ (best_score acc)).
Qed.

Lemma score_loop_run (images : list dict) : ∀ acc s,
  score_loop w text (JObj <$> images) acc s =
    (Ok (select_best (scored w text images (invokes s)) acc),
     invoked (relevance_prompts text images) s).
Proof.
  induction images as [|image images IH]; intros acc s; simpl.
  - by rewrite invoked_nil.
  - rewrite bind_run, score_image_run.
    unfold relevance_prompts; simpl.
    destruct (truthy (resolve_url image)); simpl.
    + rewrite IH. simpl. by rewrite invoked_app.
    + by rewrite IH.
Qed.

Lemma require_openai_key_set s :
  unset (OPENAI_API_KEY cfg) = false → require_openai_key cfg s = (Ok tt, s).
Proof. unfold require_openai_key. by intros ->. Qed.

(** With the key configured, [evaluate_relevance] on a list of dictionaries
    is the fold over the scored candidates. *)
Lemma evaluate_relevance_run (images : list dict) s :
  unset (OPENAI_API_KEY cfg) = false →
  evaluate_relevance w cfg (JList (JObj <$> images)) text s =
    (Ok (best (select_best (scored w text images (invokes s)) no_best)),
     invoked (relevance_prompts text images) s).
Proof.
  intros Hkey. unfold evaluate_relevance.
  erewrite bind_ok; [|by apply require_openai_key_set].
  rewrite bind_run. simpl.
  rewrite bind_run, score_loop_run. done.
Qed.

(** The scored candidates are the candidates with a resolved URL. *)
Lemma scored_elem (images : list dict) : ∀ n b sc,
  (b, sc) ∈ scored w text images n →
  ∃ image, image ∈ images ∧ truthy (resolve_url image) = true ∧
           b = image_of image.
Proof.
  induction images as [|image images IH]; intros n b sc; simpl.
  - by intros ?%elem_of_nil.
  - destruct (truthy (resolve_url image)) eqn:E.
    + intros [[= -> ->]|Hin]%elem_of_cons.
      * exists image. by rewrite elem_of_cons; auto.
      * destruct (IH _ _ _ Hin) as (i & ? & ? & ?).
        exists i. rewrite elem_of_cons; auto.
    + intros Hin. destruct (IH _ _ _ Hin) as (i & ? & ? & ?).
      exists i. rewrite elem_of_cons; auto.
Qed.

Lemma scored_nil_iff (images : list dict) : ∀ n,
  scored w text images n = [] ↔
  ∀ image, image ∈ images → truthy (resolve_url image) = false.
Proof.
  induction images as [|image images IH]; intros n; simpl.
  - split; [|done]. by intros _ ? ?%elem_of_nil.
  - destruct (truthy (resolve_url image)) eqn:E.
    + split; [done|]. intros H. specialize (H image). rewrite E in H.
      discriminate H. apply elem_of_cons; auto.
    + rewrite IH. split.
      * intros H i [->|?]%elem_of_cons; auto.
      * intros H i Hi. apply H, elem_of_cons; auto.
Qed.

(** Each score is parsed from the completion of the call with the
    corresponding prompt. *)
Lemma scored_scores_parse (images : list dict) : ∀ n b sc,
  (b, sc) ∈ scored w text images n →
  ∃ k p, relevance_prompts text images !! k = Some p ∧
         sc = parse_score w (llm w (n + k) p).
Proof.
  unfold relevance_prompts.
  induction images as [|image images IH]; intros n b sc; simpl.
  - by intros ?%elem_of_nil.
  - destruct (truthy (resolve_url image)).
    + intros [[= -> ->]|Hin]%elem_of_cons.
      * exists 0%nat. eexists. split; [done|]. by rewrite Nat.add_0_r.
      * destruct (IH _ _ _ Hin) as (k & p & Hk & ->).
        exists (S k), p. split; [done|]. by rewrite Nat.add_succ_r.
    + apply IH.
Qed.

End Scorer.

(** ** The running maximum *)

Lemma select_best_app l1 l2 acc :
  select_best (l1 ++ l2) acc = select_best l2 (select_best l1 acc).
Proof. apply foldl_app. Qed.

(** Scores that do not exceed the current best leave it in place. *)
Lemma select_best_keeps l : ∀ acc,
  (∀ x, x ∈ l → float_gt x.2 (best_score acc) = false) →
  select_best l acc = acc.
Proof.
  induction l as [|x l IH]; intros acc H; simpl; [done|].
  unfold consider. rewrite H by (apply elem_of_cons; auto).
  apply IH. intros y Hy. apply H, elem_of_cons; auto.
Qed.

(** The best score is the initial one or the score of some candidate. *)
Lemma select_best_score l : ∀ acc,
  best_score (select_best l acc) = best_score acc ∨
  ∃ x, x ∈ l ∧ best_score (select_best l acc) = x.2.
Proof.
  induction l as [|x l IH]; intros acc; simpl; [by left|].
  destruct (IH (consider x.1 x.2 acc)) as [->|(y & Hy & ->)].
  - unfold consider. destruct (float_gt _ _); simpl; [|by left].
    right. exists x. split; [apply elem_of_cons; auto|done].
  - right. exists y. split; [apply elem_of_cons; auto|done].
Qed.

Lemma consider_best_of l x acc :
  best_of l acc → best_of (l ++ [x]) (consider x.1 x.2 acc).
Proof.
  destruct x as [b sc]. unfold best_of, consider; simpl.
  destruct (float_gt sc (best_score acc)) eqn:Egt; simpl.
  - intros Hacc.
    assert (Hseen : ∀ y, y ∈ l → float_gt y.2 (best_score acc) = false).
    { destruct (best acc); [by destruct Hacc as (_ & _ & ?)|].
      destruct Hacc as [-> ?]. done. }
    split; [apply elem_of_app; right; by apply list_elem_of_singleton|].
    split.
    + destruct (best acc); [|by destruct Hacc as [<- _]].
      destruct Hacc as (_ & ? & _). by eapply float_gt_trans.
    + intros y [Hy | ->%list_elem_of_singleton]%elem_of_app;
        [|apply float_gt_irrefl].
      apply not_true_is_false. intros Hy'.
      pose proof (float_gt_trans _ _ _ Hy' Egt) as Hc.
      by rewrite (Hseen y Hy) in Hc.
  - destruct (best acc).
    + intros (Hin & Hgt & Hmax). split; [apply elem_of_app; by left|].
      split; [done|].
      by intros y [Hy | ->%list_elem_of_singleton]%elem_of_app; [apply Hmax|].
    + intros [Hsc Hmax]. split; [done|].
      intros y [Hy | ->%list_elem_of_singleton]%elem_of_app; [by apply Hmax|].
      simpl. by rewrite <- Hsc.
Qed.

Lemma select_best_best_of l2 : ∀ l1 acc,
  best_of l1 acc → best_of (l1 ++ l2) (select_best l2 acc).
Proof.
  induction l2 as [|x l2 IH]; intros l1 acc H; simpl.
  - by rewrite app_nil_r.
  - replace (l1 ++ x :: l2) with ((l1 ++ [x]) ++ l2)
      by (by rewrite <- app_assoc).
    apply IH. by apply consider_best_of.
Qed.

Lemma select_best_no_best l : best_of l (select_best l no_best).
Proof.
  apply (select_best_best_of l []). unfold best_of; simpl.
  split; [done|]. by intros ? ?%elem_of_nil.
Qed.

(** The fold ends without an image exactly when no score exceeds [-inf]. *)
Lemma select_best_None l :
  best (select_best l no_best) = None ↔
  ∀ x, x ∈ l → float_gt x.2 neg_infinity = false.
Proof.
  pose proof (select_best_no_best l) as H. unfold best_of in H.
  destruct (best (select_best l no_best)) as [b|].
  - destruct H as (Hin & Hgt & _). split; [done|].
    intros Hall. specialize (Hall _ Hin). simpl in Hall. congruence.
  - by destruct H as [_ H].
Qed.

(** The first candidate whose score exceeds all earlier scores and [-inf],
    and is exceeded by no later score, is the one the fold selects. *)
Lemma select_best_first pre b sc post :
  float_gt sc neg_infinity = true →
  (∀ x, x ∈ pre → float_gt sc x.2 = true) →
  (∀ x, x ∈ post → float_gt x.2 sc = false) →
  select_best (pre ++ (b, sc) :: post) no_best =
    {| best := Some b; best_score := sc |}.
Proof.
  intros Hinf Hpre Hpost.
  rewrite select_best_app. simpl.
  assert (float_gt sc (best_score (select_best pre no_best)) = true) as Hgt.
  { destruct (select_best_score pre no_best) as [->|(x & Hx & ->)]; auto. }
  unfold consider at 1. simpl. rewrite Hgt.
  by apply select_best_keeps.
Qed.

(** ** Selection *)

Section Selection.

Context (w : world) (cfg : config) (text : string).

Lemma scored_app (l1 l2 : list dict) : ∀ n,
  scored w text (l1 ++ l2) n =
    scored w text l1 n
    ++ scored w text l2 (length (relevance_prompts text l1) + n).
Proof.
  unfold relevance_prompts.
  induction l1 as [|image l1 IH]; intros n; simpl; [done|].
  destruct (truthy (resolve_url image)); simpl; rewrite IH; [|done].
  by rewrite Nat.add_succ_r.
Qed.

(** When every score is finite, only an empty list of scored candidates
    leaves the fold without an image. *)
Lemma select_best_finite l :
  (∀ x, x ∈ l → is_finite x.2 = true) →
  best (select_best l no_best) = None ↔ l = [].
Proof.
  intros Hfin. rewrite select_best_None. split.
  - destruct l as [|x l]; [done|]. intros H.
    specialize (H x (list_elem_of_here _ _)).
    rewrite finite_gt_neg_infinity in H; [done|].
    apply Hfin, list_elem_of_here.
  - intros ->. by intros ? ?%elem_of_nil.
Qed.

End Selection.

(** The scores of the reference parser on the texts used below. *)
Example ascii_float_examples :
  ascii_float "high" = None ∧ ascii_float "" = None ∧
  ascii_float "N/A" = None ∧
  ascii_float "-inf" = Some neg_infinity ∧ ascii_float "nan" = Some S754_nan ∧
  ascii_float " 0.1 " = Some (S754_finite false 7205759403792794 (-56)).
Proof. by vm_compute. Qed.

(** Two floats that are not NaN are comparable: when neither [a > b] nor
    [a == b] holds, [b > a] does. *)
Lemma float_gt_total a b :
  is_nan a = false → is_nan b = false →
  float_gt a b = false → SFeqb a b = false → float_gt b a = true.
Proof.
  unfold float_gt, SFltb, SFeqb, SFcompare.
  destruct a as [sa|sa| |sa ma ea], b as [sb|sb| |sb mb eb];
    try destruct sa; try destruct sb; simpl; try done.
  all: change (Pos.compare_cont Eq ?x ?y) with (Pos.compare x y).
  all: intros _ _; rewrite (Z.compare_antisym ea eb), (Pos.compare_antisym ma mb).
  all: destruct (ea ?= eb); simpl; try done.
  all: by destruct (ma ?= mb)%positive.
Qed.

(** The first candidate whose score exceeds [-inf], is exceeded by no
    score and is equal to no earlier score is the one the fold selects;
    scores that are NaN, before or after it, play no part. *)
Lemma select_best_first_maximum pre b sc post :
  float_gt sc neg_infinity = true →
  (∀ x, x ∈ pre ++ post → float_gt x.2 sc = false) →
  (∀ x, x ∈ pre → SFeqb x.2 sc = false) →
  select_best (pre ++ (b, sc) :: post) no_best =
    {| best := Some b; best_score := sc |}.
Proof.
  intros Hinf Hmax Hfirst.
  rewrite select_best_app. simpl.
  assert (float_gt sc (best_score (select_best pre no_best)) = true) as Hgt.
  { pose proof (select_best_no_best pre) as H. unfold best_of in H.
    destruct (best (select_best pre no_best)) as [b0|].
    - destruct H as (Hin & Hgt0 & _).
      apply float_gt_total.
      + by apply float_gt_rank in Hgt0 as (? & _).
      + by apply float_gt_rank in Hinf as (? & _).
      + apply (Hmax _ (proj2 (elem_of_app _ _ _) (or_introl Hin))).
      + apply (Hfirst _ Hin).
    - destruct H as [-> _]. done. }
  unfold consider at 1. simpl. rewrite Hgt.
  apply select_best_keeps. intros x Hx.
  apply Hmax, elem_of_app. by right.
Qed.

(** C2, as amended: when the scored candidates contain a candidate whose
    score exceeds [-inf], is exceeded by no other score, and is equal to no
    earlier score, that candidate is the one returned, whatever later
    candidates have an equal score and whatever candidates have a NaN
    score; and a candidate whose score is equal to the current best never
    replaces it. *)
Theorem evaluate_relevance_first_maximum
    w cfg text (images : list dict) s pre b sc post :
  unset (OPENAI_API_KEY cfg) = false →
  scored w text images (invokes s) = pre ++ (b, sc) :: post →
  float_gt sc neg_infinity = true →
  (∀ x, x ∈ pre ++ post → float_gt x.2 sc = false) →
  (∀ x, x ∈ pre → SFeqb x.2 sc = false) →
  evaluate_relevance w cfg (JList (JObj <$> images)) text s =
    (Ok (Some b), invoked (relevance_prompts text images) s) ∧
  (∀ b' sc' acc,
     SFeqb sc' (best_score acc) = true → consider b' sc' acc = acc).
Proof.
  intros Hkey Hscored Hinf Hmax Hfirst. split.
  - rewrite evaluate_relevance_run, Hscored by done.
    by rewrite select_best_first_maximum.
  - intros b' sc' acc Heq. unfold consider.
    rewrite SFleb_not_gt; [done|].
    revert Heq. unfold SFeqb, SFleb. by destruct (SFcompare _ _) as [[]|].
Qed.

Lemma evaluate_relevance_first_maximum_witness :
  evaluate_relevance (scripted [] ["nan"; "9"; "9"]) google_config
    (JList (JObj <$> [thumb; fire1; fire2])) news init =
    (Ok (Some {| url := JStr "http://a/1.jpg"; description := JStr "Fire1" |}),
     invoked (relevance_prompts news [thumb; fire1; fire2]) init).
Proof.
  refine (proj1 (evaluate_relevance_first_maximum
                   (scripted [] ["nan"; "9"; "9"]) google_config news
                   [thumb; fire1; fire2] init
                   [(image_of thumb, S754_nan)] _ _ [(image_of fire2, _)]
                   _ _ _ _ _)).
  - reflexivity.
  - by vm_compute.
  - reflexivity.
  - intros x [->%list_elem_of_singleton | ->%list_elem_of_singleton]%elem_of_app;
      reflexivity.
  - intros x ->%list_elem_of_singleton. reflexivity.
Defined.

(** C2, as stated, fails when the two equal maximal scores are [-inf]: no
    candidate is returned. *)
Lemma evaluate_relevance_equal_neg_infinity :
  scored (scripted [] ["-inf"; "-inf"]) news [fire1; fire2] 0 =
    [(image_of fire1, neg_infinity); (image_of fire2, neg_infinity)] ∧
  SFeqb neg_infinity neg_infinity = true ∧
  SFleb neg_infinity neg_infinity = true ∧
  evaluate_relevance (scripted [] ["-inf"; "-inf"]) google_config
    (JList (JObj <$> [fire1; fire2])) news init =
    (Ok None, invoked (relevance_prompts news [fire1; fire2]) init).
Proof. by vm_compute. Qed.

(** C3: a candidate with a resolved URL whose completion [float] rejects
    gets the score 0; the call returns (it does not raise); the candidate
    stands in the list the running maximum is taken over, with that score;
    and it is the one returned when 0 exceeds every earlier score and no
    later score exceeds 0. *)
Theorem evaluate_relevance_unparsable_score
    w cfg text (pre : list dict) (image : dict) (post : list dict) s :
  unset (OPENAI_API_KEY cfg) = false →
  truthy (resolve_url image) = true →
  py_float w (strip (completion_for w text pre image s)) = None →
  parse_score w (completion_for w text pre image s) = zero_score ∧
  evaluate_relevance w cfg (JList (JObj <$> pre ++ image :: post)) text s =
    (Ok (best (select_best
                 (scored w text pre (invokes s)
                  ++ (image_of image, zero_score)
                     :: scored w text post
                          (S (length (relevance_prompts text pre) + invokes s)))
                 no_best)),
     invoked (relevance_prompts text (pre ++ image :: post)) s) ∧
  ((∀ x, x ∈ scored w text pre (invokes s) → float_gt zero_score x.2 = true) →
   (∀ x, x ∈ scored w text post
             (S (length (relevance_prompts text pre) + invokes s)) →
         float_gt x.2 zero_score = false) →
   evaluate_relevance w cfg (JList (JObj <$> pre ++ image :: post)) text s =
     (Ok (Some (image_of image)),
      invoked (relevance_prompts text (pre ++ image :: post)) s)).
Proof.
  intros Hkey Hurl Hparse.
  assert (Hscore : parse_score w (completion_for w text pre image s)
                   = zero_score).
  { unfold parse_score. by rewrite Hparse. }
  assert (Hscored : scored w text (pre ++ image :: post) (invokes s) =
            scored w text pre (invokes s)
            ++ (image_of image, zero_score)
               :: scored w text post
                    (S (length (relevance_prompts text pre) + invokes s))).
  { rewrite scored_app. simpl. rewrite Hurl.
    fold (completion_for w text pre image s). by rewrite Hscore. }
  split; [done|]. rewrite evaluate_relevance_run, Hscored by done.
  split; [done|]. intros Hpre Hpost.
  by rewrite select_best_first.
Qed.

Lemma evaluate_relevance_unparsable_score_witness :
  evaluate_relevance (scripted [] ["high"; "N/A"; ""]) google_config
    (JList (JObj <$> [] ++ fire1 :: [fire2; thumb])) news init =
    (Ok (Some (image_of fire1)),
     invoked (relevance_prompts news ([] ++ fire1 :: [fire2; thumb])) init).
Proof.
  refine (proj2 (proj2 (evaluate_relevance_unparsable_score
                   (scripted [] ["high"; "N/A"; ""]) google_config news
                   [] fire1 [fire2; thumb] init _ _ _)) _ _).
  - reflexivity.
  - reflexivity.
  - by vm_compute.
  - by intros x ?%elem_of_nil.
  - intros x Hx. vm_compute in Hx.
    apply elem_of_cons in Hx as [->|Hx]; [reflexivity|].
    apply list_elem_of_singleton in Hx as ->. reflexivity.
Defined.

(** C9: the URL is resolved by truthiness.  A candidate whose [link] is
    the empty string is scored under its [thumbnail]; a candidate whose
    [link] and [thumbnail] are each absent or the empty string is skipped,
    with no model call and no change to the running maximum. *)
Theorem score_image_resolves_by_truthiness
    w text (image : dict) acc s :
  (∀ t,
     image !! "link" = Some (JStr "") →
     image !! "thumbnail" = Some t →
     truthy t = true →
     score_image w text (JObj image) acc s =
       (Ok (consider
              {| url := t;
                 description := default (JStr no_description) (image !! "title") |}
              (parse_score w (llm w (invokes s) (RelevancePrompt text t)))
              acc),
        invoked [RelevancePrompt text t] s)) ∧
  ((image !! "link" = None ∨ image !! "link" = Some (JStr "")) →
   (image !! "thumbnail" = None ∨ image !! "thumbnail" = Some (JStr "")) →
   score_image w text (JObj image) acc s = (Ok acc, s)).
Proof.
  rewrite score_image_run. unfold image_of, resolve_url. split.
  - intros t -> -> Ht. simpl. by rewrite Ht.
  - by intros [-> | ->] [-> | ->].
Qed.

Lemma score_image_resolves_by_truthiness_witness :
  score_image (scripted [] ["4"]) news (JObj empty_link) no_best init =
    (Ok (consider
           {| url := JStr "http://b/t.jpg";
              description := default (JStr no_description) (empty_link !! "title") |}
           (parse_score (scripted [] ["4"])
              (llm (scripted [] ["4"]) (invokes init)
                 (RelevancePrompt news (JStr "http://b/t.jpg"))))
           no_best),
     invoked [RelevancePrompt news (JStr "http://b/t.jpg")] init) ∧
  score_image (scripted [] ["4"]) news (JObj {[ "link" := JStr "" ]})
    no_best init = (Ok no_best, init).
Proof.
  split.
  - apply (proj1 (score_image_resolves_by_truthiness _ _ _ _ _));
      reflexivity.
  - apply (proj2 (score_image_resolves_by_truthiness _ _ _ _ _));
      [by right|by left].
Defined.

(** C8: with the key configured, if the completion of every call of the
    loop is rejected by [float] or parses to a finite float, then
    [evaluate_relevance] returns an image as soon as one candidate has a
    resolved URL, and returns [None] only when no candidate has one. *)
Theorem evaluate_relevance_finite_scores w cfg text (images : list dict) s :
  unset (OPENAI_API_KEY cfg) = false →
  (∀ k p,
     relevance_prompts text images !! k = Some p →
     match py_float w (strip (llm w (invokes s + k) p)) with
     | Some f => is_finite f = true
     | None => True
     end) →
  ∃ r,
    evaluate_relevance w cfg (JList (JObj <$> images)) text s =
      (Ok r, invoked (relevance_prompts text images) s) ∧
    ((∃ image, image ∈ images ∧ truthy (resolve_url image) = true) →
     is_Some r) ∧
    (r = None ↔
     ∀ image, image ∈ images → truthy (resolve_url image) = false).
Proof.
  intros Hkey Hfin. eexists. split; [by apply evaluate_relevance_run|].
  assert (Hiff :
    best (select_best (scored w text images (invokes s)) no_best) = None ↔
    ∀ image, image ∈ images → truthy (resolve_url image) = false).
  { rewrite select_best_finite; [apply scored_nil_iff|].
    intros [b sc] Hx. apply scored_scores_parse in Hx as (k & p & Hk & ->).
    unfold parse_score. specialize (Hfin k p Hk).
    by destruct (py_float w (strip (llm w (invokes s + k) p))). }
  split; [|done].
  intros (image & Hin & Hurl).
  destruct (best _) as [b|] eqn:E; [by eexists|].
  rewrite (proj1 Hiff eq_refl image Hin) in Hurl. done.
Qed.

Lemma evaluate_relevance_finite_scores_witness :
  ∃ r,
    evaluate_relevance (scripted [] ["high"; "7"]) google_config
      (JList (JObj <$> [empty_link; fire2])) news init =
      (Ok r, invoked (relevance_prompts news [empty_link; fire2]) init) ∧
    is_Some r.
Proof.
  destruct (evaluate_relevance_finite_scores
              (scripted [] ["high"; "7"]) google_config news
              [empty_link; fire2] init) as (r & Hrun & Hsome & _).
  - reflexivity.
  - intros [|[|k]] p Hp; vm_compute in Hp; [by vm_compute..|discriminate Hp].
  - exists r. split; [exact Hrun|].
    apply Hsome. exists fire2. split; [|reflexivity].
    apply elem_of_cons. right. apply list_elem_of_here.
Defined.

(** C4, as amended: with the key configured, [evaluate_relevance] returns
    [None] when no candidate has a [link] or a [thumbnail], and more
    generally when no candidate has a truthy one; an image it returns
    carries the resolved URL of a candidate together with its [title], or
    the placeholder when the [title] key is absent, and the score of that
    candidate exceeds [-inf] and is exceeded by no scored candidate; and it
    returns an image whenever some scored candidate exceeds [-inf]. *)
Theorem evaluate_relevance_selection w cfg text (images : list dict) s :
  unset (OPENAI_API_KEY cfg) = false →
  ∃ r,
    evaluate_relevance w cfg (JList (JObj <$> images)) text s =
      (Ok r, invoked (relevance_prompts text images) s) ∧
    ((∀ image, image ∈ images →
        image !! "link" = None ∧ image !! "thumbnail" = None) →
     r = None) ∧
    ((∀ image, image ∈ images → truthy (resolve_url image) = false) →
     r = None) ∧
    (∀ b, r = Some b →
       ∃ image sc,
         image ∈ images ∧
         truthy (resolve_url image) = true ∧
         url b = resolve_url image ∧
         description b = default (JStr no_description) (image !! "title") ∧
         (b, sc) ∈ scored w text images (invokes s) ∧
         float_gt sc neg_infinity = true ∧
         ∀ x, x ∈ scored w text images (invokes s) → float_gt x.2 sc = false) ∧
    ((∃ x, x ∈ scored w text images (invokes s) ∧
           float_gt x.2 neg_infinity = true) →
     is_Some r).
Proof.
  intros Hkey. eexists. split; [by apply evaluate_relevance_run|].
  set (l := scored w text images (invokes s)).
  assert (Hnone : (∀ image, image ∈ images →
                     truthy (resolve_url image) = false) →
                  best (select_best l no_best) = None).
  { intros Hall. apply (scored_nil_iff w text images (invokes s)) in Hall.
    subst l. by rewrite Hall. }
  split; [|split; [done|split]].
  - intros Hall. apply Hnone. intros image Hin.
    destruct (Hall image Hin) as [Hl Ht].
    unfold resolve_url. by rewrite Hl, Ht.
  - intros b Hb. pose proof (select_best_no_best l) as H.
    unfold best_of in H. rewrite Hb in H. destruct H as (Hin & Hgt & Hmax).
    destruct (scored_elem _ _ _ _ _ _ Hin) as (image & Himg & Hurl & ->).
    by exists image, (best_score (select_best l no_best)).
  - intros (x & Hx & Hgt).
    destruct (best (select_best l no_best)) eqn:E; [by eexists|].
    rewrite select_best_None in E. by rewrite (E x Hx) in Hgt.
Qed.

Lemma evaluate_relevance_selection_witness :
  ∃ r,
    evaluate_relevance (scripted [] ["7"; "9"]) google_config
      (JList (JObj <$> [fire1; fire2])) news init =
      (Ok r, invoked (relevance_prompts news [fire1; fire2]) init).
Proof.
  destruct (evaluate_relevance_selection (scripted [] ["7"; "9"])
              google_config news [fire1; fire2] init) as (r & Hrun & _).
  - reflexivity.
  - by exists r.
Defined.

(** C4, as stated, fails: a candidate that has a [link] field, but an
    empty one, leaves the result [None]; and so does a candidate with a
    resolved URL whose score is NaN. *)
Lemma evaluate_relevance_none_despite_fields :
  (is_Some (({[ "link" := JStr "" ]} : dict) !! "link") ∧
   evaluate_relevance (scripted [] []) google_config
     (JList [JObj {[ "link" := JStr "" ]}]) news init = (Ok None, init)) ∧
  (resolve_url fire1 = JStr "http://a/1.jpg" ∧
   evaluate_relevance (scripted [] ["nan"]) google_config
     (JList [JObj fire1]) news init =
     (Ok None, invoked [RelevancePrompt news (JStr "http://a/1.jpg")] init)).
Proof.
  split; split.
  - exists (JStr ""). by vm_compute.
  - by vm_compute.
  - by vm_compute.
  - by vm_compute.
Qed.

(** The end-to-end scenario of the first provider: two candidates scored
    7 and 9. *)
Example evaluate_relevance_fire :
  (evaluate_relevance (scripted [] ["7"; "9"]) google_config
     (JList [JObj fire1; JObj fire2]) news init).1 =
  Ok (Some {| url := JStr "http://a/2.jpg"; description := JStr "Fire2" |}).
Proof. by vm_compute. Qed.

(** ** Adapters and orchestrator *)

Section Orchestrator.

Context (w : world) (cfg : config).

(** The fetcher calls no model. *)
Lemma attempt_request_invokes url p a s r s' :
  attempt_request w url p a s = (r, s') → invokes s' = invokes s.
Proof.
  unfold attempt_request, try_except, requests_get.
  cbv [mbind M_bind bind mret M_ret ret print sleep emit raise
       raise_for_status response_json].
  destruct (http w (gets s) url p) as [resp|e]; simpl.
  - destruct (status_code resp =? 429); simpl; [by intros [= <- <-]|].
    destruct ((400 <=? status_code resp) && (status_code resp <? 600)); simpl;
      [by intros [= <- <-]|].
    destruct (json_body resp) as [v|e]; simpl; [by intros [= <- <-]|].
    destruct (is_RequestException e); by intros [= <- <-].
  - destruct (is_RequestException e); by intros [= <- <-].
Qed.

Lemma retry_loop_invokes url p n : ∀ a s r s',
  retry_loop w url p a n s = (r, s') → invokes s' = invokes s.
Proof.
  induction n as [|n IH]; intros a s r s'; simpl.
  - by intros [= <- <-].
  - rewrite bind_run.
    destruct (attempt_request w url p (Z.of_nat a) s) as [[[|v]|e] s1] eqn:E;
      apply attempt_request_invokes in E.
    + intros H%IH. congruence.
    + intros [= <- <-]. done.
    + intros [= <- <-]. done.
Qed.

(** Each adapter turns the result of the fetch into a list: a falsy body
    gives the empty list, a dictionary gives its list field or the empty
    list, any other truthy body has no [get]. *)
Lemma search_images_google_run query s :
  search_images_google w cfg query s =
    match make_request_with_retries w google_url (google_params cfg query)
            default_max_retries s with
    | (Ok data, s1) =>
        if truthy data then dict_get_default data "items" (JList []) s1
        else (Ok (JList []), s1)
    | (Raise e, s1) => (Raise e, s1)
    end.
Proof.
  unfold search_images_google. rewrite bind_run.
  destruct (make_request_with_retries _ _ _ _ _) as [[data|e] s1]; [|done].
  by destruct (truthy data).
Qed.

Lemma search_images_duckduckgo_run query s :
  search_images_duckduckgo w cfg query s =
    match make_request_with_retries w serpapi_url (duckduckgo_params cfg query)
            default_max_retries s with
    | (Ok data, s1) =>
        if truthy data then
          dict_get_default data "images_results" (JList []) s1
        else (Ok (JList []), s1)
    | (Raise e, s1) => (Raise e, s1)
    end.
Proof.
  unfold search_images_duckduckgo. rewrite bind_run.
  destruct (make_request_with_retries _ _ _ _ _) as [[data|e] s1]; [|done].
  by destruct (truthy data).
Qed.

Lemma selected_search_invokes query s r s' :
  selected_search w cfg query s = (r, s') → invokes s' = invokes s.
Proof.
  unfold selected_search.
  destruct (engine_is cfg "google");
    [rewrite search_images_google_run|rewrite search_images_duckduckgo_run];
    unfold make_request_with_retries;
    destruct (retry_loop _ _ _ _ _ _) as [[data|e] s1] eqn:E;
    apply retry_loop_invokes in E.
  all: try (intros [= <- <-]; done).
  all: destruct (truthy data); [|by intros [= <- <-]].
  all: destruct data; simpl; by intros [= <- <-].
Qed.

Lemma configured_spec :
  configured cfg = true ↔
  unset (OPENAI_API_KEY cfg) = false ∧
  (engine_is cfg "google" = true ∧ unset (GOOGLE_API_KEY cfg) = false ∧
   unset (GOOGLE_CSE_ID cfg) = false
   ∨ engine_is cfg "duckduckgo" = true ∧ unset (SERPAPI_API_KEY cfg) = false).
Proof.
  unfold configured.
  destruct (unset (OPENAI_API_KEY cfg)), (engine_is cfg "google"),
    (unset (GOOGLE_API_KEY cfg)), (unset (GOOGLE_CSE_ID cfg)),
    (engine_is cfg "duckduckgo"), (unset (SERPAPI_API_KEY cfg)); simpl;
    intuition congruence.
Qed.

Lemma engine_is_exclusive :
  engine_is cfg "google" = true → engine_is cfg "duckduckgo" = false.
Proof.
  unfold engine_is. destruct (SEARCH_ENGINE cfg) as [e|]; [|done].
  by intros ->%String.eqb_eq.
Qed.

(** With a complete configuration the checks pass without a trace. *)
Lemma check_configuration_configured s :
  configured cfg = true → check_configuration cfg s = (Ok tt, s).
Proof.
  rewrite configured_spec. unfold check_configuration, require_openai_key.
  intros [-> [(Hg & -> & ->)|[Hd ->]]]; simpl.
  - by rewrite Hg.
  - destruct (engine_is cfg "google") eqn:Hg.
    + apply engine_is_exclusive in Hg. congruence.
    + by rewrite Hd.
Qed.

(** With an incomplete configuration the checks print one message and
    exit with status 1. *)
Lemma check_configuration_incomplete s :
  configured cfg = false →
  ∃ m, check_configuration cfg s = (Raise (SystemExit 1), logged [EvPrint m] s).
Proof.
  unfold configured, check_configuration, require_openai_key.
  destruct (unset (OPENAI_API_KEY cfg)); simpl; [by eexists|].
  destruct (engine_is cfg "google"); simpl.
  - destruct (unset (GOOGLE_API_KEY cfg)); simpl; [by eexists|].
    destruct (unset (GOOGLE_CSE_ID cfg)); simpl; [by eexists|].
    done.
  - destruct (engine_is cfg "duckduckgo"); simpl; [|by eexists].
    destruct (unset (SERPAPI_API_KEY cfg)); simpl; [by eexists|done].
Qed.

(** With a complete configuration [main] reaches the search. *)
Lemma main_run :
  configured cfg = true →
  main w cfg init =
    (images ← selected_search w cfg (keywords_of w);
     report w cfg images (stdin w)) (searching w cfg).
Proof.
  intros Hcfg. unfold main.
  erewrite bind_ok; [|by apply check_configuration_configured].
  apply configured_spec in Hcfg as [Hkey Hengine].
  unfold extract_keywords, require_openai_key, selected_search.
  rewrite Hkey.
  cbv [mbind M_bind bind mret M_ret ret print emit input llm_invoke logged];
    simpl.
  fold (keywords_of w). fold (searching w cfg).
  destruct Hengine as [(Hg & _)|[Hd _]].
  - by rewrite Hg.
  - destruct (engine_is cfg "google") eqn:Hg.
    + apply engine_is_exclusive in Hg. congruence.
    + by rewrite Hd.
Qed.

End Orchestrator.

Lemma truthy_dict_with_key (m : dict) key v :
  m !! key = Some v → truthy (JObj m) = true.
Proof.
  intros Hkey. simpl. apply negb_true_iff, Nat.eqb_neq.
  intros Hsize%map_size_empty_iff. by rewrite Hsize, lookup_empty in Hkey.
Qed.

(** C10: when the fetch returns a falsy body, or a dictionary without the
    list field of the provider ([items], [images_results]), the adapter
    returns the empty list, as it does when the fetch fails. *)
Theorem search_images_fieldless_body w cfg query s data s1 :
  (make_request_with_retries w google_url (google_params cfg query)
     default_max_retries s = (Ok data, s1) →
   truthy data = false ∨ (∃ m, data = JObj m ∧ m !! "items" = None) →
   search_images_google w cfg query s = (Ok (JList []), s1)) ∧
  (make_request_with_retries w serpapi_url (duckduckgo_params cfg query)
     default_max_retries s = (Ok data, s1) →
   truthy data = false ∨ (∃ m, data = JObj m ∧ m !! "images_results" = None) →
   search_images_duckduckgo w cfg query s = (Ok (JList []), s1)).
Proof.
  split; intros Hfetch Hbody.
  - rewrite search_images_google_run, Hfetch.
    destruct Hbody as [->|(m & -> & Hm)]; [done|].
    destruct (truthy (JObj m)); [|done]. simpl. by rewrite Hm.
  - rewrite search_images_duckduckgo_run, Hfetch.
    destruct Hbody as [->|(m & -> & Hm)]; [done|].
    destruct (truthy (JObj m)); [|done]. simpl. by rewrite Hm.
Qed.

Lemma search_images_fieldless_body_witness :
  search_images_google
    (scripted [respond 200 (JObj {[ "kind" := JStr "customsearch#search" ]})] [])
    google_config "wildfire" init =
    (Ok (JList []), issued google_url (google_params google_config "wildfire") init) ∧
  search_images_duckduckgo (scripted [respond 200 (JList [])] [])
    duckduckgo_config "wildfire" init =
    (Ok (JList []),
     issued serpapi_url (duckduckgo_params duckduckgo_config "wildfire") init).
Proof.
  split.
  - apply (proj1 (search_images_fieldless_body _ _ _ _
                    (JObj {[ "kind" := JStr "customsearch#search" ]}) _)).
    + reflexivity.
    + right. eexists. split; reflexivity.
  - apply (proj2 (search_images_fieldless_body _ _ _ _ (JList []) _)).
    + reflexivity.
    + left. reflexivity.
Defined.

(** C5: each adapter returns the empty list (it does not raise) when every
    attempt of the fetch fails and when the body holds an empty list of
    items; and when the selected adapter returns an empty (falsy) value,
    [main] prints the no-images message and returns, the keyword call being
    the only model call of the run. *)
Theorem empty_search_reports_no_images w cfg query s :
  ((∀ k, (k < Z.to_nat default_max_retries)%nat →
         transient (http w (gets s + k) google_url (google_params cfg query))
         = true) →
   ∃ s', search_images_google w cfg query s = (Ok (JList []), s')) ∧
  ((∀ k, (k < Z.to_nat default_max_retries)%nat →
         transient (http w (gets s + k) serpapi_url
                      (duckduckgo_params cfg query)) = true) →
   ∃ s', search_images_duckduckgo w cfg query s = (Ok (JList []), s')) ∧
  (∀ m s1,
     m !! "items" = Some (JList []) →
     make_request_with_retries w google_url (google_params cfg query)
       default_max_retries s = (Ok (JObj m), s1) →
     search_images_google w cfg query s = (Ok (JList []), s1)) ∧
  (∀ m s1,
     m !! "images_results" = Some (JList []) →
     make_request_with_retries w serpapi_url (duckduckgo_params cfg query)
       default_max_retries s = (Ok (JObj m), s1) →
     search_images_duckduckgo w cfg query s = (Ok (JList []), s1)) ∧
  (∀ images s2,
     configured cfg = true →
     selected_search w cfg (keywords_of w) (searching w cfg) = (Ok images, s2) →
     truthy images = false →
     main w cfg init = (Ok tt, logged [EvPrint MsgNoImagesFound] s2) ∧
     invokes s2 = 1%nat).
Proof.
  split; [|split; [|split; [|split]]].
  - intros Hall.
    destruct (retry_loop_exhausted w _ _ _ 0%nat s Hall) as (s' & Hrun & _).
    exists s'. rewrite search_images_google_run.
    unfold make_request_with_retries. by rewrite Hrun.
  - intros Hall.
    destruct (retry_loop_exhausted w _ _ _ 0%nat s Hall) as (s' & Hrun & _).
    exists s'. rewrite search_images_duckduckgo_run.
    unfold make_request_with_retries. by rewrite Hrun.
  - intros m s1 Hm Hfetch. rewrite search_images_google_run, Hfetch.
    rewrite (truthy_dict_with_key _ _ _ Hm). simpl. by rewrite Hm.
  - intros m s1 Hm Hfetch. rewrite search_images_duckduckgo_run, Hfetch.
    rewrite (truthy_dict_with_key _ _ _ Hm). simpl. by rewrite Hm.
  - intros images s2 Hcfg Hsearch Hfalsy. split.
    + rewrite main_run by done. erewrite bind_ok by done.
      unfold report. by rewrite Hfalsy.
    + apply selected_search_invokes in Hsearch. by rewrite Hsearch.
Qed.

Lemma empty_search_reports_no_images_witness :
  main (scripted [respond 200 (JObj {[ "images_results" := JList [] ]})]
          ["wildfire region"])
    duckduckgo_config init =
    (Ok tt,
     logged [EvPrint MsgNoImagesFound]
       (issued serpapi_url (duckduckgo_params duckduckgo_config "wildfire region")
          (searching
             (scripted [respond 200 (JObj {[ "images_results" := JList [] ]})]
                ["wildfire region"])
             duckduckgo_config))).
Proof.
  refine (proj1 (proj2 (proj2 (proj2 (proj2
            (empty_search_reports_no_images
               (scripted [respond 200 (JObj {[ "images_results" := JList [] ]})]
                  ["wildfire region"])
               duckduckgo_config "wildfire region" init))))
            (JList []) _ _ _ _)).
  - reflexivity.
  - by vm_compute.
  - reflexivity.
Defined.

(** C7: when [OPENAI_API_KEY] is unset or empty, or [SEARCH_ENGINE] is
    neither [google] nor [duckduckgo], or a credential of the selected
    provider is unset or empty, [main] prints one message and exits with
    status 1, having issued no GET and no model call; when the
    configuration is complete, every configuration check passes and [main]
    goes on to the search. *)
Theorem main_configuration_check w cfg :
  (unset (OPENAI_API_KEY cfg) = true →
   main w cfg init =
     (Raise (SystemExit 1), logged [EvPrint MsgNoOpenAIKey] init)) ∧
  (unset (OPENAI_API_KEY cfg) = true
   ∨ engine_is cfg "google" = false ∧ engine_is cfg "duckduckgo" = false
   ∨ engine_is cfg "google" = true ∧
     (unset (GOOGLE_API_KEY cfg) = true ∨ unset (GOOGLE_CSE_ID cfg) = true)
   ∨ engine_is cfg "duckduckgo" = true ∧ unset (SERPAPI_API_KEY cfg) = true →
   ∃ m s',
     main w cfg init = (Raise (SystemExit 1), s') ∧
     1 ≠ 0 ∧ trace s' = [EvPrint m] ∧ gets s' = 0%nat ∧ invokes s' = 0%nat) ∧
  (configured cfg = true →
   (∀ s, check_configuration cfg s = (Ok tt, s)) ∧
   (∀ s, require_openai_key cfg s = (Ok tt, s)) ∧
   main w cfg init =
     (images ← selected_search w cfg (keywords_of w);
      report w cfg images (stdin w)) (searching w cfg)).
Proof.
  split; [|split].
  - intros Hkey. unfold main, check_configuration, require_openai_key.
    by rewrite Hkey.
  - intros Hmissing.
    assert (Hcfg : configured cfg = false).
    { apply not_true_is_false. rewrite configured_spec.
      intros [Hkey [(Hg & Hk & Hc)|[Hd Hs]]];
        destruct Hmissing as [?|[[? ?]|[[? [?|?]]|[? ?]]]]; try congruence.
      all: pose proof engine_is_exclusive cfg; intuition congruence. }
    destruct (check_configuration_incomplete cfg init Hcfg) as [m Hm].
    exists m, (logged [EvPrint m] init).
    unfold main. erewrite bind_raise by done. repeat split. lia.
  - intros Hcfg. split; [|split].
    + intros s. by apply check_configuration_configured.
    + intros s. apply require_openai_key_set.
      by apply configured_spec in Hcfg as [? _].
    + by apply main_run.
Qed.

Lemma main_configuration_check_witness :
  main (scripted [] [])
    {| OPENAI_API_KEY := None;
       SEARCH_ENGINE := Some "google";
       GOOGLE_API_KEY := Some "google-key";
       GOOGLE_CSE_ID := Some "cse-id";
       SERPAPI_API_KEY := Some "serpapi-key" |} init =
    (Raise (SystemExit 1), logged [EvPrint MsgNoOpenAIKey] init) ∧
  check_configuration google_config init = (Ok tt, init).
Proof.
  split.
  - apply (proj1 (main_configuration_check _ _)). reflexivity.
  - apply (proj1 (proj2 (proj2 (main_configuration_check
                                   (scripted [] []) google_config))
                    ltac:(reflexivity))).
Defined.

(** The end-to-end scenario of the first provider, through [main]: the
    search returns two candidates, the model scores them 7 and 9, and the
    second one is reported. *)
Example main_reports_best_image :
  main
    (scripted [respond 200 (JObj {[ "items" := JList [JObj fire1; JObj fire2] ]})]
       ["wildfire region"; "7"; "9"])
    google_config init =
    (Ok tt,
     logged [EvPrint (MsgChosenUrl (JStr "http://a/2.jpg"));
             EvPrint (MsgChosenDescription (JStr "Fire2"))]
       (invoked [RelevancePrompt news (JStr "http://a/1.jpg");
                 RelevancePrompt news (JStr "http://a/2.jpg")]
          (logged [EvPrint MsgScoring]
             (issued google_url (google_params google_config "wildfire region")
                (searching
                   (scripted [] ["wildfire region"]) google_config))))).
Proof. by vm_compute. Qed.

(** * Further properties *)

(** ** The fetcher, attempt by attempt *)

Section Attempts.

Context (w : world) (url : string) (p : params).

Lemma settles_None_transient o : settles o = None ↔ transient o = true.
Proof.
  destruct o as [r|e]; simpl.
  - destruct (status_code r =? 429); simpl; [done|].
    destruct ((400 <=? status_code r) && (status_code r <? 600)); simpl;
      [done|].
    destruct (json_body r) as [v|e]; [done|].
    by destruct (is_RequestException e).
  - by destruct (is_RequestException e).
Qed.

(** One attempt, in full. *)
Lemma attempt_request_settles a s :
  attempt_request w url p a s =
    match settles (http w (gets s) url p) with
    | None =>
        (Ok Continue,
         logged [EvPrint (backoff_message (http w (gets s) url p));
                 EvSleep (2 ^ a)] (issued url p s))
    | Some (Ok v) => (Ok (Return v), issued url p s)
    | Some (Raise e) => (Raise e, issued url p s)
    end.
Proof.
  destruct (settles (http w (gets s) url p)) as [[v|e]|] eqn:E.
  - revert E. unfold attempt_request, try_except, requests_get, settles.
    rewrite bind_run.
    destruct (http w (gets s) url p) as [r|e]; simpl;
      [|by destruct (is_RequestException e)].
    destruct (status_code r =? 429); simpl; [done|].
    unfold raise_for_status, response_json. rewrite !bind_run.
    destruct ((400 <=? status_code r) && (status_code r <? 600)); simpl;
      [done|].
    destruct (json_body r) as [v'|e]; simpl; [by intros [= ->]|].
    by destruct (is_RequestException e).
  - revert E. unfold attempt_request, try_except, requests_get, settles.
    rewrite bind_run.
    destruct (http w (gets s) url p) as [r|e']; simpl.
    + destruct (status_code r =? 429); simpl; [done|].
      unfold raise_for_status, response_json. rewrite !bind_run.
      destruct ((400 <=? status_code r) && (status_code r <? 600)); simpl;
        [done|].
      destruct (json_body r) as [v'|e']; simpl; [done|].
      destruct (is_RequestException e') eqn:Ee; [done|].
      intros [= Heq]. by subst e'.
    + destruct (is_RequestException e') eqn:Ee; [done|].
      intros [= Heq]. by subst e'.
  - apply settles_None_transient in E. by apply attempt_request_transient.
Qed.

Lemma backoff_schedule_app a k1 k2 :
  backoff_schedule a (k1 + k2) =
    backoff_schedule a k1 ++ backoff_schedule (a + k1) k2.
Proof.
  revert a. induction k1 as [|k1 IH]; intros a; simpl.
  - by rewrite Nat.add_0_r.
  - rewrite IH. by rewrite Nat.add_succ_r.
Qed.

Lemma backoff_schedule_total a n :
  foldr Z.add 0 (backoff_schedule a n) =
    2 ^ Z.of_nat (a + n) - 2 ^ Z.of_nat a.
Proof.
  revert a. induction n as [|n IH]; intros a; simpl.
  - rewrite Nat.add_0_r. lia.
  - rewrite IH. rewrite Nat.add_succ_r. simpl (S a + n)%nat.
    replace (Z.of_nat (S a)) with (Z.of_nat a + 1) by lia.
    rewrite Z.pow_add_r by lia. lia.
Qed.

Lemma total_sleep_app t1 t2 :
  total_sleep (t1 ++ t2) = total_sleep t1 + total_sleep t2.
Proof.
  unfold total_sleep. rewrite sleeps_app.
  induction (sleeps t1) as [|x l IH]; simpl; lia.
Qed.

(** The loop ends at the first attempt that settles: [k] retried attempts,
    then the result of attempt [k]. *)
Lemma retry_loop_settles k : ∀ n a s out,
  (k < n)%nat →
  (∀ j, (j < k)%nat → settles (http w (gets s + j) url p) = None) →
  settles (http w (gets s + k) url p) = Some out →
  ∃ s',
    retry_loop w url p a n s = (out, s') ∧
    sleeps (trace s') = sleeps (trace s) ++ backoff_schedule a k ∧
    gets s' = (gets s + S k)%nat.
Proof.
  induction k as [|k IH]; intros [|n] a s out Hlt Hpre Hk; try lia; simpl.
  - rewrite Nat.add_0_r in Hk.
    rewrite bind_run, attempt_request_settles, Hk.
    destruct out as [v|e]; eexists; (split; [done|]); simpl;
      rewrite sleeps_app; simpl; rewrite !app_nil_r; split; (done || lia).
  - assert (H0 : settles (http w (gets s) url p) = None).
    { rewrite <- (Nat.add_0_r (gets s)). apply Hpre. lia. }
    rewrite bind_run, attempt_request_settles, H0.
    set (s1 := logged _ _).
    destruct (IH n (S a) s1 out) as (s' & Hrun & Hsl & Hg); [lia| | |].
    + intros j Hj. subst s1; simpl.
      replace (S (gets s + j))%nat with (gets s + S j)%nat by lia.
      apply Hpre. lia.
    + subst s1; simpl.
      by replace (S (gets s + k))%nat with (gets s + S k)%nat by lia.
    + exists s'. split; [done|]. rewrite Hsl, Hg. subst s1; simpl.
      rewrite !sleeps_app; simpl. rewrite app_nil_r, <- app_assoc. simpl.
      split; [done|lia].
Qed.

(** Whatever the server does: the sleeps follow the schedule, there is one
    GET per sleep and at most one more, never more GETs than attempts
    allowed, every GET goes to the given URL with the given parameters, and
    the model is not called. *)
Lemma retry_loop_invariant n : ∀ a s r s',
  retry_loop w url p a n s = (r, s') →
  ∃ k, (k ≤ n)%nat ∧
    sleeps (trace s') = sleeps (trace s) ++ backoff_schedule a k ∧
    (gets s + k ≤ gets s')%nat ∧ (gets s' ≤ gets s + S k)%nat ∧
    (gets s' ≤ gets s + n)%nat ∧
    requests (trace s') =
      requests (trace s) ++ replicate (gets s' - gets s) (url, p) ∧
    invokes s' = invokes s.
Proof.
  unfold requests.
  induction n as [|n IH]; intros a s r s'; simpl.
  - intros [= <- <-]. exists 0%nat. simpl.
    rewrite sleeps_app, omap_app, Nat.sub_diag. simpl. rewrite !app_nil_r.
    repeat split; lia.
  - rewrite bind_run, attempt_request_settles.
    destruct (settles (http w (gets s) url p)) as [[v|e]|].
    + intros [= <- <-]. exists 0%nat. simpl.
      rewrite sleeps_app, omap_app. simpl. rewrite !app_nil_r.
      replace (S (gets s) - gets s)%nat with 1%nat by lia.
      repeat split; lia.
    + intros [= <- <-]. exists 0%nat. simpl.
      rewrite sleeps_app, omap_app. simpl. rewrite !app_nil_r.
      replace (S (gets s) - gets s)%nat with 1%nat by lia.
      repeat split; lia.
    + set (s1 := logged _ _). intros Hrun.
      destruct (IH _ _ _ _ Hrun) as (k & Hk & Hsl & Hlo & Hhi & Hn & Hreq & Hi).
      exists (S k). rewrite Hsl, Hreq, Hi. subst s1; simpl in *.
      rewrite !sleeps_app, !omap_app; simpl.
      rewrite !app_nil_r, <- !app_assoc. simpl.
      replace (gets s' - gets s)%nat with (S (gets s' - S (gets s))) by lia.
      simpl. repeat split; lia.
Qed.

End Attempts.

(** X1: whatever the server answers and however the call ends, the fetcher
    issues at most [max_retries] GETs, all to the given URL with the given
    parameters; its sleeps are the first [k] terms of 1, 2, 4, ... for some
    [k] that is the number of GETs or one less; and it calls no model. *)
Theorem make_request_with_retries_budget w url p max_retries s :
  ∃ k, (k ≤ Z.to_nat max_retries)%nat ∧
    sleeps (trace (make_request_with_retries w url p max_retries s).2) =
      sleeps (trace s) ++ backoff_schedule 0 k ∧
    (gets s + k ≤ gets (make_request_with_retries w url p max_retries s).2)%nat ∧
    (gets (make_request_with_retries w url p max_retries s).2
     ≤ gets s + S k)%nat ∧
    (gets (make_request_with_retries w url p max_retries s).2
     ≤ gets s + Z.to_nat max_retries)%nat ∧
    requests (trace (make_request_with_retries w url p max_retries s).2) =
      requests (trace s)
      ++ replicate
           (gets (make_request_with_retries w url p max_retries s).2 - gets s)
           (url, p) ∧
    invokes (make_request_with_retries w url p max_retries s).2 = invokes s.
Proof.
  unfold make_request_with_retries.
  destruct (retry_loop w url p 0 (Z.to_nat max_retries) s) as [r s'] eqn:E.
  simpl. by eapply retry_loop_invariant.
Qed.

(** X2: with [max_retries] zero or negative the loop body never runs: no
    GET is issued, nothing is slept, and the fetcher prints the give-up
    message and returns [None]. *)
Theorem make_request_with_retries_no_attempts w url p max_retries s :
  max_retries ≤ 0 →
  make_request_with_retries w url p max_retries s =
    (Ok JNull, logged [EvPrint MsgRetriesExhausted] s).
Proof.
  intros Hmax. unfold make_request_with_retries.
  by replace (Z.to_nat max_retries) with 0%nat by lia.
Qed.

Lemma make_request_with_retries_no_attempts_witness :
  make_request_with_retries
    (scripted [respond 200 (JObj {[ "items" := JList [] ]})] [])
    google_url [] (-2) init =
    (Ok JNull, logged [EvPrint MsgRetriesExhausted] init).
Proof. apply make_request_with_retries_no_attempts. lia. Defined.

(** X3: the fetcher returns the body of the first response whose status is
    neither 429 nor another 4xx or 5xx and whose body decodes, provided
    every earlier attempt was retried and the attempt is within
    [max_retries]: after [k] retried attempts it has slept 1, 2, ...,
    [2^(k-1)] and issued [k + 1] GETs.  The status need not be 2xx. *)
Theorem make_request_with_retries_first_success
    w url p max_retries s (k : nat) r body :
  Z.of_nat k < max_retries →
  (∀ j, (j < k)%nat → transient (http w (gets s + j) url p) = true) →
  http w (gets s + k) url p = Ok r →
  status_code r ≠ 429 →
  ¬ (400 ≤ status_code r < 600) →
  json_body r = Ok body →
  ∃ s',
    make_request_with_retries w url p max_retries s = (Ok body, s') ∧
    sleeps (trace s') = sleeps (trace s) ++ backoff_schedule 0 k ∧
    gets s' = (gets s + S k)%nat.
Proof.
  intros Hk Hpre Hr H429 Herr Hbody. unfold make_request_with_retries.
  apply retry_loop_settles; [lia| |].
  - intros j Hj. by apply settles_None_transient, Hpre.
  - rewrite Hr. simpl. rewrite Hbody.
    destruct (Z.eqb_spec (status_code r) 429) as [|_]; [done|].
    destruct ((400 <=? status_code r) && (status_code r <? 600)) eqn:E;
      [|done].
    apply andb_true_iff in E as [?%Z.leb_le ?%Z.ltb_lt]. lia.
Qed.

Lemma make_request_with_retries_first_success_witness :
  ∃ s',
    make_request_with_retries
      (scripted [respond 500 JNull; Raise (RequestError "Timeout");
                 respond 304 (JObj {[ "items" := JList [JObj fire1] ]})] [])
      google_url [] default_max_retries init =
      (Ok (JObj {[ "items" := JList [JObj fire1] ]}), s') ∧
    sleeps (trace s') = sleeps (trace init) ++ backoff_schedule 0 2 ∧
    gets s' = (gets init + 3)%nat.
Proof.
  eapply (make_request_with_retries_first_success _ _ _ _ _ 2).
  - unfold default_max_retries. lia.
  - intros [|[|j]] Hj; [reflexivity..|lia].
  - reflexivity.
  - simpl. lia.
  - simpl. lia.
  - reflexivity.
Defined.

(** X4: one call never sleeps more than [2^max_retries - 1] seconds in
    total (31 with the default of 5), and sleeps exactly that long when
    every attempt is retried. *)
Theorem make_request_with_retries_total_sleep w url p max_retries s :
  total_sleep (trace (make_request_with_retries w url p max_retries s).2)
  ≤ total_sleep (trace s) + (2 ^ Z.of_nat (Z.to_nat max_retries) - 1) ∧
  ((∀ k, (k < Z.to_nat max_retries)%nat →
         transient (http w (gets s + k) url p) = true) →
   total_sleep (trace (make_request_with_retries w url p max_retries s).2)
   = total_sleep (trace s) + (2 ^ Z.of_nat (Z.to_nat max_retries) - 1)).
Proof.
  unfold make_request_with_retries, total_sleep. split.
  - destruct (retry_loop w url p 0 (Z.to_nat max_retries) s) as [r s'] eqn:E.
    apply retry_loop_invariant in E as (k & Hk & Hsl & _). simpl.
    rewrite Hsl, foldr_app.
    assert (Hshift : ∀ l x, foldr Z.add x l = foldr Z.add 0 l + x).
    { induction l as [|y l IH]; intros x; simpl; [lia|]. rewrite IH. lia. }
    rewrite Hshift, backoff_schedule_total. simpl.
    assert (2 ^ Z.of_nat k ≤ 2 ^ Z.of_nat (Z.to_nat max_retries))
      by (apply Z.pow_le_mono_r; lia).
    lia.
  - intros Hall.
    destruct (retry_loop_exhausted w url p _ 0%nat s Hall)
      as (s' & Hrun & Hsl & _).
    rewrite Hrun. simpl. rewrite Hsl, foldr_app.
    assert (Hshift : ∀ l x, foldr Z.add x l = foldr Z.add 0 l + x).
    { induction l as [|y l IH]; intros x; simpl; [lia|]. rewrite IH. lia. }
    rewrite Hshift, backoff_schedule_total. simpl. lia.
Qed.

Lemma make_request_with_retries_total_sleep_witness :
  total_sleep
    (trace (make_request_with_retries
              (scripted (replicate 5 (respond 503 JNull)) [])
              serpapi_url [] default_max_retries init).2) =
  total_sleep (trace init)
  + (2 ^ Z.of_nat (Z.to_nat default_max_retries) - 1).
Proof.
  apply (proj2 (make_request_with_retries_total_sleep _ _ _ _ _)).
  intros k Hk.
  do 5 (destruct k as [|k]; [reflexivity|]).
  unfold default_max_retries in Hk. lia.
Defined.

(** X5: an exception that is not a [RequestException], raised by the GET
    or, when the status is neither 429 nor an error, by decoding the body,
    ends the call at once: it propagates after [k + 1] GETs when the [k]
    earlier attempts were retried, with no sleep after it and no further
    attempt. *)
Theorem make_request_with_retries_escape
    w url p max_retries s (k : nat) e :
  Z.of_nat k < max_retries →
  (∀ j, (j < k)%nat → transient (http w (gets s + j) url p) = true) →
  is_RequestException e = false →
  http w (gets s + k) url p = Raise e
  ∨ (∃ r, http w (gets s + k) url p = Ok r ∧ status_code r ≠ 429 ∧
          ¬ (400 ≤ status_code r < 600) ∧ json_body r = Raise e) →
  ∃ s',
    make_request_with_retries w url p max_retries s = (Raise e, s') ∧
    sleeps (trace s') = sleeps (trace s) ++ backoff_schedule 0 k ∧
    gets s' = (gets s + S k)%nat.
Proof.
  intros Hk Hpre He Hraise. unfold make_request_with_retries.
  apply retry_loop_settles; [lia| |].
  - intros j Hj. by apply settles_None_transient, Hpre.
  - destruct Hraise as [->|(r & -> & H429 & Herr & Hbody)]; simpl.
    + by rewrite He.
    + rewrite Hbody, He.
      destruct (Z.eqb_spec (status_code r) 429) as [|_]; [done|].
      destruct ((400 <=? status_code r) && (status_code r <? 600)) eqn:E;
        [|done].
      apply andb_true_iff in E as [?%Z.leb_le ?%Z.ltb_lt]. lia.
Qed.

Lemma make_request_with_retries_escape_witness :
  ∃ s',
    make_request_with_retries
      (scripted [respond 429 JNull;
                 Ok {| status_code := 200;
                       json_body := Raise (PyError "ValueError") |}] [])
      google_url [] default_max_retries init =
      (Raise (PyError "ValueError"), s') ∧
    sleeps (trace s') = sleeps (trace init) ++ backoff_schedule 0 1 ∧
    gets s' = (gets init + 2)%nat.
Proof.
  eapply (make_request_with_retries_escape _ _ _ _ _ 1).
  - unfold default_max_retries. lia.
  - intros [|j] Hj; [reflexivity|lia].
  - reflexivity.
  - right. eexists. split; [reflexivity|]. simpl. repeat split; lia.
Defined.

(** ** The adapters on unexpected bodies *)

(** X6: when the fetch returns a truthy body that is not a dictionary (a
    non-empty list, a string, a number), either adapter raises
    [AttributeError] at [data.get]. *)
Theorem search_images_non_dict_body w cfg query s data s1 :
  truthy data = true →
  is_dict data = false →
  (make_request_with_retries w google_url (google_params cfg query)
     default_max_retries s = (Ok data, s1) →
   search_images_google w cfg query s = (Raise (PyError "AttributeError"), s1)) ∧
  (make_request_with_retries w serpapi_url (duckduckgo_params cfg query)
     default_max_retries s = (Ok data, s1) →
   search_images_duckduckgo w cfg query s =
     (Raise (PyError "AttributeError"), s1)).
Proof.
  intros Htruthy Hdict. split; intros Hfetch.
  - rewrite search_images_google_run, Hfetch, Htruthy. by destruct data.
  - rewrite search_images_duckduckgo_run, Hfetch, Htruthy. by destruct data.
Qed.

Lemma search_images_non_dict_body_witness :
  search_images_google (scripted [respond 200 (JList [JObj fire1])] [])
    google_config "wildfire" init =
    (Raise (PyError "AttributeError"),
     issued google_url (google_params google_config "wildfire") init).
Proof.
  apply (proj1 (search_images_non_dict_body _ _ _ _ (JList [JObj fire1]) _
                  ltac:(reflexivity) ltac:(reflexivity))).
  reflexivity.
Defined.

(** X7: when the body is a dictionary that has the list field of the
    provider, either adapter returns the value of that field as it is,
    whatever it holds: no reordering, no truncation, no check that it is a
    list. *)
Theorem search_images_returns_field w cfg query s (m : dict) v s1 :
  (m !! "items" = Some v →
   make_request_with_retries w google_url (google_params cfg query)
     default_max_retries s = (Ok (JObj m), s1) →
   search_images_google w cfg query s = (Ok v, s1)) ∧
  (m !! "images_results" = Some v →
   make_request_with_retries w serpapi_url (duckduckgo_params cfg query)
     default_max_retries s = (Ok (JObj m), s1) →
   search_images_duckduckgo w cfg query s = (Ok v, s1)).
Proof.
  split; intros Hm Hfetch.
  - rewrite search_images_google_run, Hfetch.
    rewrite (truthy_dict_with_key _ _ _ Hm). simpl. by rewrite Hm.
  - rewrite search_images_duckduckgo_run, Hfetch.
    rewrite (truthy_dict_with_key _ _ _ Hm). simpl. by rewrite Hm.
Qed.

Lemma search_images_returns_field_witness :
  search_images_duckduckgo
    (scripted [respond 200 (JObj {[ "images_results" := JList [JObj thumb; JObj fire1] ]})] [])
    duckduckgo_config "wildfire" init =
    (Ok (JList [JObj thumb; JObj fire1]),
     issued serpapi_url (duckduckgo_params duckduckgo_config "wildfire") init).
Proof.
  apply (proj2 (search_images_returns_field _ _ _ _
                  {[ "images_results" := JList [JObj thumb; JObj fire1] ]}
                  _ _)); reflexivity.
Defined.

(** ** The functions that call the model *)

(** X8: with [OPENAI_API_KEY] unset or empty, [extract_keywords] and
    [evaluate_relevance] print the missing-key message and exit with
    status 1 before anything else: no model call is made and the argument
    is not looked at, so even a value that could not be iterated over does
    not change the outcome. *)
Theorem model_functions_require_key w cfg text (images : json) s :
  unset (OPENAI_API_KEY cfg) = true →
  extract_keywords w cfg text s =
    (Raise (SystemExit 1), logged [EvPrint MsgNoOpenAIKey] s) ∧
  evaluate_relevance w cfg images text s =
    (Raise (SystemExit 1), logged [EvPrint MsgNoOpenAIKey] s).
Proof.
  intros Hkey.
  unfold extract_keywords, evaluate_relevance, require_openai_key.
  by rewrite Hkey.
Qed.

Lemma model_functions_require_key_witness :
  evaluate_relevance (scripted [] ["9"])
    (with_google_keys
       {| OPENAI_API_KEY := Some ""; SEARCH_ENGINE := Some "google";
          GOOGLE_API_KEY := None; GOOGLE_CSE_ID := None;
          SERPAPI_API_KEY := None |} (Some "google-key") (Some "cse-id"))
    (JInt 3) news init =
    (Raise (SystemExit 1), logged [EvPrint MsgNoOpenAIKey] init).
Proof.
  refine (proj2 (model_functions_require_key _ _ _ _ _ _)).
  reflexivity.
Defined.

(** ** The scorer, call by call *)

Lemma relevance_prompts_length text (images : list dict) :
  length (relevance_prompts text images) =
    length (List.filter resolvable images).
Proof.
  unfold relevance_prompts, resolvable.
  induction images as [|image images IH]; simpl; [done|].
  destruct (truthy (resolve_url image)); simpl; [f_equal|]; exact IH.
Qed.

Lemma relevance_prompts_filter text (images : list dict) :
  relevance_prompts text (List.filter resolvable images) =
    relevance_prompts text images.
Proof.
  unfold relevance_prompts, resolvable.
  induction images as [|image images IH]; simpl; [done|].
  destruct (truthy (resolve_url image)) eqn:E; simpl; [|exact IH].
  rewrite E. f_equal. exact IH.
Qed.

Lemma scored_filter w text (images : list dict) : ∀ n,
  scored w text (List.filter resolvable images) n = scored w text images n.
Proof.
  unfold resolvable.
  induction images as [|image images IH]; intros n; simpl; [done|].
  destruct (truthy (resolve_url image)) eqn:E; simpl; [|done].
  by rewrite E, IH.
Qed.

Lemma score_loop_app w text (l1 l2 : list json) : ∀ acc s,
  score_loop w text (l1 ++ l2) acc s =
    (acc' ← score_loop w text l1 acc; score_loop w text l2 acc') s.
Proof.
  induction l1 as [|image l1 IH]; intros acc s; simpl; [done|].
  rewrite !bind_run.
  destruct (score_image w text image acc s) as [[acc'|e] s1]; [|done].
  by rewrite IH, bind_run.
Qed.

(** X9: on a list of dictionaries, with the key configured,
    [evaluate_relevance] calls the model exactly once for each candidate
    with a resolved URL, in the order of the list and whatever the scores
    are; that is at most once per candidate.  It issues no GET and does
    not sleep. *)
Theorem evaluate_relevance_model_calls w cfg text (images : list dict) s :
  unset (OPENAI_API_KEY cfg) = false →
  trace (evaluate_relevance w cfg (JList (JObj <$> images)) text s).2 =
    trace s ++ (EvInvoke <$> relevance_prompts text images) ∧
  invokes (evaluate_relevance w cfg (JList (JObj <$> images)) text s).2 =
    (length (List.filter resolvable images) + invokes s)%nat ∧
  (length (List.filter resolvable images) ≤ length images)%nat ∧
  gets (evaluate_relevance w cfg (JList (JObj <$> images)) text s).2 = gets s.
Proof.
  intros Hkey. rewrite evaluate_relevance_run by done. simpl.
  rewrite relevance_prompts_length. repeat split.
  apply List.filter_length_le.
Qed.

Lemma evaluate_relevance_model_calls_witness :
  invokes (evaluate_relevance (scripted [] ["10"; "1"]) google_config
             (JList (JObj <$> [fire1; ∅; fire2])) news init).2 =
    (length (List.filter resolvable [fire1; ∅; fire2]) + invokes init)%nat.
Proof.
  refine (proj1 (proj2 (evaluate_relevance_model_calls _ _ _ _ _ _))).
  reflexivity.
Defined.

(** X10: a candidate that is not a dictionary makes [evaluate_relevance]
    raise [AttributeError] when the loop reaches it, after the model has
    been called for the candidates before it; and a value that cannot be
    iterated over ([None], a boolean, a number) raises [TypeError] before
    any model call. *)
Theorem evaluate_relevance_ill_typed
    w cfg text (pre : list dict) (v : json) (post : list json) s :
  unset (OPENAI_API_KEY cfg) = false →
  (is_dict v = false →
   evaluate_relevance w cfg (JList ((JObj <$> pre) ++ v :: post)) text s =
     (Raise (PyError "AttributeError"),
      invoked (relevance_prompts text pre) s)) ∧
  (match v with
   | JNull | JBool _ | JInt _ | JFloat _ => True
   | _ => False
   end →
   evaluate_relevance w cfg v text s = (Raise (PyError "TypeError"), s)).
Proof.
  intros Hkey. split.
  - intros Hdict. unfold evaluate_relevance.
    erewrite bind_ok; [|by apply require_openai_key_set].
    rewrite bind_run. simpl.
    rewrite bind_run, score_loop_app, bind_run, score_loop_run. simpl.
    rewrite bind_run.
    by destruct v.
  - intros Hv. unfold evaluate_relevance.
    erewrite bind_ok; [|by apply require_openai_key_set].
    by destruct v.
Qed.

Lemma evaluate_relevance_ill_typed_witness :
  evaluate_relevance (scripted [] ["5"]) google_config
    (JList ((JObj <$> [fire1]) ++ JStr "http://a/2.jpg" :: [JObj fire2]))
    news init =
    (Raise (PyError "AttributeError"),
     invoked (relevance_prompts news [fire1]) init).
Proof.
  refine (proj1 (evaluate_relevance_ill_typed _ _ _ [fire1]
                   (JStr "http://a/2.jpg") [JObj fire2] _ _) _);
    reflexivity.
Defined.

(** X11: a truthy [link] is the URL that is scored and stored, and the
    [thumbnail] is never consulted: setting it to any value changes
    neither the result nor the model call. *)
Theorem score_image_prefers_link w text (image : dict) link acc s :
  image !! "link" = Some link →
  truthy link = true →
  score_image w text (JObj image) acc s =
    (Ok (consider
           {| url := link;
              description := default (JStr no_description) (image !! "title") |}
           (parse_score w (llm w (invokes s) (RelevancePrompt text link)))
           acc),
     invoked [RelevancePrompt text link] s) ∧
  ∀ t, score_image w text (JObj (<["thumbnail" := t]> image)) acc s =
       score_image w text (JObj image) acc s.
Proof.
  intros Hlink Htruthy.
  assert (Hurl : resolve_url image = link).
  { unfold resolve_url. rewrite Hlink. simpl. by rewrite Htruthy. }
  split.
  - rewrite score_image_run. unfold image_of. rewrite Hurl. by rewrite Htruthy.
  - intros t. rewrite !score_image_run.
    assert (Hurl' : resolve_url (<["thumbnail" := t]> image) = link).
    { unfold resolve_url. rewrite lookup_insert_ne by done.
      rewrite Hlink. simpl. by rewrite Htruthy. }
    unfold image_of. rewrite Hurl, Hurl'.
    by rewrite lookup_insert_ne by done.
Qed.

Lemma score_image_prefers_link_witness :
  score_image (scripted [] ["8"]) news
    (JObj (<["thumbnail" := JStr "http://b/t.jpg"]> fire1)) no_best init =
  score_image (scripted [] ["8"]) news (JObj fire1) no_best init.
Proof.
  refine (proj2 (score_image_prefers_link _ _ fire1 (JStr "http://a/1.jpg")
                   _ _ _ _) (JStr "http://b/t.jpg")); reflexivity.
Defined.

(** X12: the candidates the loop skips count for nothing: dropping every
    candidate without a resolved URL from the list changes neither the
    result of [evaluate_relevance] nor the model calls it makes. *)
Theorem evaluate_relevance_ignores_skipped w cfg text (images : list dict) s :
  evaluate_relevance w cfg
    (JList (JObj <$> List.filter resolvable images)) text s =
  evaluate_relevance w cfg (JList (JObj <$> images)) text s.
Proof.
  destruct (unset (OPENAI_API_KEY cfg)) eqn:Hkey.
  - unfold evaluate_relevance, require_openai_key. by rewrite Hkey.
  - rewrite !evaluate_relevance_run by done.
    by rewrite scored_filter, relevance_prompts_filter.
Qed.

(** ** The orchestrator, end to end *)

Lemma print_print_run m1 m2 s :
  (print m1;; print m2) s = (Ok tt, logged [EvPrint m1; EvPrint m2] s).
Proof.
  cbv [mbind M_bind bind print emit logged]; simpl.
  by rewrite <- app_assoc.
Qed.

(** X13: with a complete configuration, once the selected adapter has
    returned a list of dictionaries, [main] returns normally after exactly
    one of three reports: no images when the list is empty; otherwise the
    URL and description of the image the running maximum selects, or the
    no-relevant-image message when it selects none.  The model calls of
    the scoring are the only events between the search and the report. *)
Theorem main_reports w cfg (images : list dict) s2 :
  configured cfg = true →
  selected_search w cfg (keywords_of w) (searching w cfg) =
    (Ok (JList (JObj <$> images)), s2) →
  main w cfg init = (Ok tt, final_report w images s2).
Proof.
  intros Hcfg Hsearch. rewrite main_run by done.
  erewrite bind_ok by done. unfold report, final_report.
  destruct images as [|image images]; [done|].
  change (negb (truthy (JList (JObj <$> image :: images)))) with false.
  cbv iota. rewrite bind_run.
  change (print MsgScoring s2) with (Ok tt, logged [EvPrint MsgScoring] s2).
  cbv iota beta.
  rewrite bind_run, evaluate_relevance_run
    by (by apply configured_spec in Hcfg as [? _]).
  simpl (invokes _).
  destruct (best _); [apply print_print_run|done].
Qed.

Lemma main_reports_witness :
  main
    (scripted [respond 200 (JObj {[ "items" := JList (JObj <$> [fire1; fire2]) ]})]
       ["wildfire region"; "nan"; "nan"])
    google_config init =
    (Ok tt,
     final_report
       (scripted [respond 200 (JObj {[ "items" := JList (JObj <$> [fire1; fire2]) ]})]
          ["wildfire region"; "nan"; "nan"])
       [fire1; fire2]
       (issued google_url (google_params google_config "wildfire region")
          (searching (scripted [] ["wildfire region"]) google_config))).
Proof.
  apply main_reports; [reflexivity|by vm_compute].
Defined.

(** X14: the credentials of the provider that is not selected play no
    part: with [SEARCH_ENGINE] set to [google] the whole run of [main] is
    the same whatever [SERPAPI_API_KEY] is, and with [duckduckgo] it is the
    same whatever [GOOGLE_API_KEY] and [GOOGLE_CSE_ID] are. *)
Theorem main_ignores_other_provider w cfg s :
  (engine_is cfg "google" = true →
   ∀ v, main w (with_serpapi_key cfg v) s = main w cfg s) ∧
  (engine_is cfg "duckduckgo" = true →
   ∀ key cse, main w (with_google_keys cfg key cse) s = main w cfg s).
Proof.
  split.
  - intros Hg v. unfold main, check_configuration.
    change (engine_is (with_serpapi_key cfg v)) with (engine_is cfg).
    by rewrite Hg.
  - intros Hd key cse.
    assert (Hg : engine_is cfg "google" = false).
    { destruct (engine_is cfg "google") eqn:Hg; [|done].
      apply engine_is_exclusive in Hg. congruence. }
    unfold main, check_configuration.
    change (engine_is (with_google_keys cfg key cse)) with (engine_is cfg).
    by rewrite Hg, Hd.
Qed.

Lemma main_ignores_other_provider_witness :
  main (scripted [respond 200 JNull] ["wildfire"])
    (with_serpapi_key google_config (Some "serpapi-key")) init =
  main (scripted [respond 200 JNull] ["wildfire"]) google_config init.
Proof.
  refine (proj1 (main_ignores_other_provider _ google_config _) _
            (Some "serpapi-key")).
  reflexivity.
Defined.

(** ** The network budget of a run *)

Lemma net_cost_ret {A} (a : A) : net_cost 0 0 (mret a).
Proof. intros s r s' [= <- <-]. lia. Qed.

Lemma net_cost_raise {A} e : net_cost 0 0 (raise e : M A).
Proof. intros s r s' [= <- <-]. lia. Qed.

Lemma net_cost_print m : net_cost 0 0 (print m).
Proof.
  intros s r s' [= <- <-]. simpl. rewrite total_sleep_app.
  change (total_sleep [EvPrint m]) with 0. lia.
Qed.

Lemma net_cost_llm_invoke w p : net_cost 0 0 (llm_invoke w p).
Proof.
  intros s r s' [= <- <-]. simpl. rewrite total_sleep_app.
  change (total_sleep [EvInvoke p]) with 0. lia.
Qed.

Lemma net_cost_input w : net_cost 0 0 (input w).
Proof.
  intros s r s' [= <- <-]. simpl. rewrite total_sleep_app.
  change (total_sleep [EvInput]) with 0. lia.
Qed.

Lemma net_cost_dict_get v key : net_cost 0 0 (dict_get v key).
Proof. destruct v; intros ? ? ? [= <- <-]; lia. Qed.

Lemma net_cost_dict_get_default v key d :
  net_cost 0 0 (dict_get_default v key d).
Proof. destruct v; intros ? ? ? [= <- <-]; lia. Qed.

Lemma net_cost_py_iter v : net_cost 0 0 (py_iter v).
Proof. destruct v; intros ? ? ? [= <- <-]; lia. Qed.

(** Costs add up along a sequence. *)
Lemma net_cost_bind {A B} g1 t1 g2 t2 (m : M A) (k : A → M B) :
  0 ≤ t2 →
  net_cost g1 t1 m → (∀ a, net_cost g2 t2 (k a)) →
  net_cost (g1 + g2) (t1 + t2) (m ≫= k).
Proof.
  intros Ht Hm Hk s r s'. rewrite bind_run.
  destruct (m s) as [[a|e] s1] eqn:E; specialize (Hm _ _ _ E).
  - intros Hrun. specialize (Hk _ _ _ _ Hrun). lia.
  - intros [= <- <-]. lia.
Qed.

(** A step that costs nothing leaves the budget to what follows. *)
Lemma net_cost_free {A B} g t (m : M A) (k : A → M B) :
  0 ≤ t →
  net_cost 0 0 m → (∀ a, net_cost g t (k a)) → net_cost g t (m ≫= k).
Proof. intros Ht Hm Hk. by apply (net_cost_bind 0 0 g t). Qed.

Create HintDb net.

#[local] Hint Resolve net_cost_ret net_cost_raise net_cost_print
  net_cost_llm_invoke net_cost_input net_cost_dict_get
  net_cost_dict_get_default net_cost_py_iter : net.

Ltac net_steps :=
  repeat first
    [ apply net_cost_free; [lia | by auto with net | intros ?]
    | by auto with net ].

Lemma net_cost_require_openai_key cfg : net_cost 0 0 (require_openai_key cfg).
Proof.
  unfold require_openai_key, sys_exit.
  destruct (unset (OPENAI_API_KEY cfg)); net_steps.
Qed.

#[local] Hint Resolve net_cost_require_openai_key : net.

Lemma net_cost_extract_keywords w cfg text :
  net_cost 0 0 (extract_keywords w cfg text).
Proof. unfold extract_keywords. net_steps. Qed.

Lemma net_cost_score_image w text image acc :
  net_cost 0 0 (score_image w text image acc).
Proof.
  unfold score_image.
  apply net_cost_free; [lia|by auto with net|intros link].
  apply net_cost_free; [lia|destruct (truthy link); by auto with net|].
  intros image_url.
  destruct (negb (truthy image_url)); [by auto with net|].
  apply net_cost_free; [lia|by auto with net|intros score_text].
  destruct (float_gt _ _); net_steps.
Qed.

#[local] Hint Resolve net_cost_extract_keywords net_cost_score_image : net.

Lemma net_cost_score_loop w text images : ∀ acc,
  net_cost 0 0 (score_loop w text images acc).
Proof.
  induction images as [|image images IH]; intros acc; simpl; net_steps.
Qed.

#[local] Hint Resolve net_cost_score_loop : net.

Lemma net_cost_evaluate_relevance w cfg images text :
  net_cost 0 0 (evaluate_relevance w cfg images text).
Proof. unfold evaluate_relevance. net_steps. Qed.

#[local] Hint Resolve net_cost_evaluate_relevance : net.

Lemma net_cost_report w cfg images text :
  net_cost 0 0 (report w cfg images text).
Proof.
  unfold report. destruct (negb (truthy images)); [by auto with net|].
  apply net_cost_free; [lia|by auto with net|intros _].
  apply net_cost_free; [lia|by auto with net|intros [b|]]; net_steps.
Qed.

Lemma net_cost_check_configuration cfg :
  net_cost 0 0 (check_configuration cfg).
Proof.
  unfold check_configuration, sys_exit.
  apply net_cost_free; [lia|by auto with net|intros _].
  destruct (engine_is cfg "google");
    [destruct (_ || _)|destruct (engine_is cfg "duckduckgo");
                        [destruct (unset _)|]]; net_steps.
Qed.

#[local] Hint Resolve net_cost_report net_cost_check_configuration : net.

(** The fetcher costs at most [n] GETs and [2^n - 1] seconds. *)
Lemma net_cost_retry_loop w url p n :
  net_cost n (2 ^ Z.of_nat n - 1) (retry_loop w url p 0 n).
Proof.
  intros s r s' Hrun.
  apply retry_loop_invariant in Hrun as (k & Hk & Hsl & _ & _ & Hg & _).
  split; [done|]. unfold total_sleep. rewrite Hsl, foldr_app.
  assert (Hshift : ∀ l x, foldr Z.add x l = foldr Z.add 0 l + x).
  { induction l as [|y l IH]; intros x; simpl; [lia|]. rewrite IH. lia. }
  rewrite Hshift, backoff_schedule_total. simpl.
  assert (2 ^ Z.of_nat k ≤ 2 ^ Z.of_nat n) by (apply Z.pow_le_mono_r; lia).
  lia.
Qed.

Lemma net_cost_search_images w cfg query :
  net_cost 5 31 (search_images_google w cfg query) ∧
  net_cost 5 31 (search_images_duckduckgo w cfg query).
Proof.
  split.
  - unfold search_images_google.
    apply (net_cost_bind 5 31 0 0); [lia| |].
    + apply (net_cost_retry_loop w _ _ 5).
    + intros data. destruct (truthy data); by auto with net.
  - unfold search_images_duckduckgo.
    apply (net_cost_bind 5 31 0 0); [lia| |].
    + apply (net_cost_retry_loop w _ _ 5).
    + intros data. destruct (truthy data); by auto with net.
Qed.

(** X15: whatever the configuration, the server and the model do, and
    however the run ends, one run of [main] issues at most 5 GETs and
    sleeps at most 31 seconds in total. *)
Theorem main_network_budget w cfg :
  (gets (main w cfg init).2 ≤ 5)%nat ∧
  total_sleep (trace (main w cfg init).2) ≤ 31.
Proof.
  assert (Hmain : net_cost 5 31 (main w cfg)).
  { unfold main.
    apply net_cost_free; [lia|by auto with net|intros _].
    apply net_cost_free; [lia|by auto with net|intros text].
    apply net_cost_free; [lia|by auto with net|intros _].
    apply net_cost_free; [lia|by auto with net|intros keywords].
    apply net_cost_free; [lia|by auto with net|intros _].
    apply net_cost_free; [lia|by auto with net|intros _].
    destruct (net_cost_search_images w cfg keywords) as [Hg Hd].
    destruct (engine_is cfg "google");
      [|destruct (engine_is cfg "duckduckgo")].
    - apply (net_cost_bind 5 31 0 0); [lia|done|by auto with net].
    - apply (net_cost_bind 5 31 0 0); [lia|done|by auto with net].
    - intros s r s' Hrun. apply net_cost_print in Hrun. lia. }
  destruct (main w cfg init) as [r s'] eqn:E.
  apply Hmain in E. simpl in *. change (total_sleep []) with 0 in E. lia.
Qed.

(** X16: [main] handles no exception: with a complete configuration,
    whatever the selected adapter raises ends the run with that exception,
    in the state the adapter left, and nothing is reported. *)
Theorem main_propagates_search_failure w cfg e s2 :
  configured cfg = true →
  selected_search w cfg (keywords_of w) (searching w cfg) = (Raise e, s2) →
  main w cfg init = (Raise e, s2).
Proof.
  intros Hcfg Hsearch. rewrite main_run by done. by erewrite bind_raise.
Qed.

Lemma main_propagates_search_failure_witness :
  main (scripted [respond 200 (JList [JObj fire1])] ["wildfire"])
    google_config init =
    (Raise (PyError "AttributeError"),
     issued google_url (google_params google_config "wildfire")
       (searching (scripted [] ["wildfire"]) google_config)).
Proof.
  apply main_propagates_search_failure; [reflexivity|by vm_compute].
Defined.

(** X17: a candidate whose completion parses to NaN never becomes the best
    image, whatever the running maximum is, not even the initial one: the
    model is called for it and the running maximum stays as it was. *)
Theorem score_image_nan w text (image : dict) acc s :
  truthy (resolve_url image) = true →
  py_float w
    (strip (llm w (invokes s) (RelevancePrompt text (resolve_url image))))
  = Some S754_nan →
  score_image w text (JObj image) acc s =
    (Ok acc, invoked [RelevancePrompt text (resolve_url image)] s).
Proof.
  intros Hurl Hnan. rewrite score_image_run, Hurl.
  unfold parse_score. rewrite Hnan. unfold consider, float_gt, SFltb.
  by destruct (best_score acc).
Qed.

Lemma score_image_nan_witness :
  score_image (scripted [] ["NaN"]) news (JObj fire1) no_best init =
    (Ok no_best, invoked [RelevancePrompt news (resolve_url fire1)] init).
Proof. apply score_image_nan; by vm_compute. Defined.
